(** * OptiRoute: the route sequencing engine of [useRouteCalculation.ts]

    A shallow embedding of [haversine], [calculateNearestNeighborOrder],
    [calculateGreedyInsertionOrder], [fetchOSRMTripRoute], [fetchOSRMRoute]
    and [calculateMultiPointRoute], and the properties of the route they
    build.

    Numbers.  A JavaScript [number] is modelled as a real number: [+], [-],
    [*], [/] and [<] are the exact operations, [Math.sin], [Math.cos],
    [Math.sqrt], [Math.atan2] and [Math.PI] are the functions they
    approximate.  Rounding, overflow and [NaN] are outside the model.
    [Infinity], which the greedy search uses as its initial best value, is the
    [None] of an [option R].

    Effects.  The three network collaborators (geocoder, trip provider,
    segment provider) are functions from a request to a response, gathered in
    a [Services] record.  A computation returns the log of what it did (network
    requests and toasts, in order) together with its outcome, a value or a
    thrown exception. *)

From Stdlib Require Import String Ascii.
From Stdlib Require Import Reals Lra Lia Bool Arith ZArith List Permutation.
From Stdlib Require Import DecimalString.
From Equations Require Import Equations.
Import ListNotations.

Local Open Scope R_scope.
Local Open Scope list_scope.

(** ** Numbers and arrays *)

(** [x < y] on numbers. *)
Definition Rltb (x y : R) : bool := if Rlt_dec x y then true else false.

(** [x === y] on numbers. *)
Definition Reqb (x y : R) : bool := if Req_dec_T x y then true else false.

Lemma Rltb_true x y : Rltb x y = true <-> x < y.
Proof. unfold Rltb. destruct (Rlt_dec x y); split; intros; try easy. Qed.

Lemma Rltb_false x y : Rltb x y = false <-> y <= x.
Proof.
  unfold Rltb. destruct (Rlt_dec x y); split; intros; try easy; lra.
Qed.

Lemma Reqb_true x y : Reqb x y = true <-> x = y.
Proof. unfold Reqb. destruct (Req_dec_T x y); split; intros; easy. Qed.

Section Arrays.
Context {A : Type}.

(** [l.splice(i, 1)]: nothing is removed when [i] is past the end. *)
Fixpoint remove_at (i : nat) (l : list A) : list A :=
  match l, i with
  | [], _ => []
  | _ :: t, O => t
  | h :: t, S j => h :: remove_at j t
  end.

(** [l.splice(pos, 0, x)]: [x] goes to the end when [pos] is past it. *)
Fixpoint insert_at (pos : nat) (x : A) (l : list A) : list A :=
  match pos, l with
  | O, _ => x :: l
  | S _, [] => [x]
  | S p, h :: t => h :: insert_at p x t
  end.

(** [l.findIndex(p)], with [None] for -1. *)
Fixpoint findIndex (p : A -> bool) (l : list A) : option nat :=
  match l with
  | [] => None
  | h :: t => if p h then Some O else option_map S (findIndex p t)
  end.

Lemma remove_at_length i l :
  (i < length l)%nat -> length (remove_at i l) = pred (length l).
Proof.
  revert i; induction l as [|h t IH]; intros [|j] H; simpl in *; try lia.
  rewrite IH by lia. destruct t; simpl in *; lia.
Qed.

Lemma findIndex_Some p l i :
  findIndex p l = Some i ->
  exists x, nth_error l i = Some x /\ p x = true /\
            forall j y, (j < i)%nat -> nth_error l j = Some y -> p y = false.
Proof.
  revert i; induction l as [|h t IH]; simpl; intros i H; [discriminate|].
  destruct (p h) eqn:Hp.
  - inversion H; subst. exists h. repeat split; auto. intros; lia.
  - destruct (findIndex p t) as [k|]; [|discriminate].
    inversion H; subst. destruct (IH k eq_refl) as (x & Hx & Hpx & Hlt).
    exists x. repeat split; auto.
    intros [|j] y Hj Hy; simpl in Hy.
    + now inversion Hy; subst.
    + apply (Hlt j); auto; lia.
Qed.

Lemma findIndex_None p l :
  findIndex p l = None <-> forall x, In x l -> p x = false.
Proof.
  induction l as [|h t IH]; simpl.
  - split; auto. intros _ x [].
  - destruct (p h) eqn:Hp.
    + split; [discriminate|]. intros H. rewrite (H h) in Hp by (now left).
    discriminate.
    + destruct (findIndex p t); simpl.
      * split; [discriminate|]. intros H.
        assert (Some n = None) by (apply IH; auto). discriminate.
      * split; auto. intros _ x [<-|Hx]; auto. now apply IH.
Qed.

Lemma remove_at_perm i l x :
  nth_error l i = Some x -> Permutation l (x :: remove_at i l).
Proof.
  revert i; induction l as [|h t IH]; intros [|j] H; simpl in *;
    try discriminate.
  - inversion H; subst. reflexivity.
  - rewrite perm_swap. constructor. now apply IH.
Qed.

Lemma insert_at_perm pos x l : Permutation (x :: l) (insert_at pos x l).
Proof.
  revert l; induction pos as [|p IH]; intros [|h t]; simpl; auto.
  rewrite perm_swap. constructor. apply IH.
Qed.
End Arrays.

(** ** Data model ([routeUtils.ts]) *)

(** A coordinate pair as the code carries it: [[lon, lat]] for stops and
    requests, [[lat, lon]] for route geometry. *)
Definition Coords : Type := (R * R)%type.

Definition swap_axes (c : Coords) : Coords := (snd c, fst c).

(** [interface Waypoint].  An absent [visited] or [isEndPoint] is falsy and
    is [false] here; an absent [name] or [coordinates] is [None]. *)
Record Waypoint := mkWaypoint {
  wp_id : string;
  wp_address : string;
  wp_name : option string;
  wp_coordinates : option Coords;
  wp_visited : bool;
  wp_isEndPoint : bool
}.

(** [interface LocationData], the waypoints of a route.  A label read from an
    object that has no such field is [undefined], here [None]. *)
Record LocationData := mkLocationData {
  latitude : R;
  longitude : R;
  address : option string;
  name : option string;
  id : option string;
  displayNumber : nat
}.

(** [interface RouteData]. *)
Record RouteData := mkRouteData {
  distance : R;
  duration : R;
  coordinates : list Coords;
  waypoints : list LocationData
}.

(** The [waypoint: any] field of a leg [{coords, waypoint}]: [null] for the
    placeholders of the greedy skeleton, a geocoded stop, or (what the greedy
    skeleton stores for its end point) a whole leg. *)
Inductive Payload :=
| PNull
| PStop (w : Waypoint)
| PLeg (c : Coords) (inner : Payload).

Record Leg := mkLeg { coords : Coords; waypoint : Payload }.

(** ** [haversine] *)

Definition toRad (x : R) : R := x * PI / 180.

(** [Math.atan2(y, x)]. *)
Definition atan2 (y x : R) : R :=
  if Rlt_dec 0 x then atan (y / x)
  else if Rlt_dec x 0 then
         if Rle_dec 0 y then atan (y / x) + PI else atan (y / x) - PI
  else if Rlt_dec 0 y then PI / 2
  else if Rlt_dec y 0 then - (PI / 2)
  else 0.

Definition haversine (p q : Coords) : R :=
  let '(lon1, lat1) := p in
  let '(lon2, lat2) := q in
  let dLat := toRad (lat2 - lat1) in
  let dLon := toRad (lon2 - lon1) in
  let a := (sin (dLat / 2)) ^ 2 +
           cos (toRad lat1) * cos (toRad lat2) * (sin (dLon / 2)) ^ 2 in
  6371000 * 2 * atan2 (sqrt a) (sqrt (1 - a)).

Arguments haversine : simpl never.

(** [wp.coords[0] === endCoords[0] && wp.coords[1] === endCoords[1]]. *)
Definition coords_match (e : Coords) (wp : Leg) : bool :=
  Reqb (fst (coords wp)) (fst e) && Reqb (snd (coords wp)) (snd e).

(** ** [calculateNearestNeighborOrder] *)

(** The inner [for (let i = 1; ...)] scan, from index [i] on. *)
Fixpoint nn_scan (current : Coords) (rest : list Leg) (i minIdx : nat)
    (minDist : R) : nat :=
  match rest with
  | [] => minIdx
  | wp :: rest' =>
      let dist := haversine current (coords wp) in
      if Rltb dist minDist
      then nn_scan current rest' (S i) i dist
      else nn_scan current rest' (S i) minIdx minDist
  end.

(** [minIdx] after the scan of a non-empty [remaining]. *)
Definition nearestIndex (current : Coords) (r0 : Leg) (rest : list Leg) : nat :=
  nn_scan current rest 1 0 (haversine current (coords r0)).

Lemma nn_scan_bound current rest : forall i minIdx minDist,
  (minIdx < i)%nat ->
  (nn_scan current rest i minIdx minDist < i + length rest)%nat.
Proof.
  induction rest as [|wp rest IH]; simpl; intros i minIdx minDist H; [lia|].
  destruct (Rltb _ _).
  - specialize (IH (S i) i (haversine current (coords wp))). lia.
  - specialize (IH (S i) minIdx minDist). lia.
Qed.

Lemma nearestIndex_lt current r0 rest :
  (nearestIndex current r0 rest < length (r0 :: rest))%nat.
Proof.
  unfold nearestIndex. pose proof (nn_scan_bound current rest 1 0
    (haversine current (coords r0))). simpl. lia.
Qed.

(** The [while (remaining.length > 0)] loop. *)
Equations? nn_loop (current : Coords) (remaining : list Leg) : list Leg
    by wf (length remaining) lt :=
  nn_loop current [] := [];
  nn_loop current (r0 :: rest) :=
    let minIdx := nearestIndex current r0 rest in
    let picked := nth minIdx (r0 :: rest) r0 in
    picked :: nn_loop (coords picked) (remove_at minIdx (r0 :: rest)).
Proof.
  pose proof (nearestIndex_lt current r0 rest) as H.
  rewrite remove_at_length by exact H. simpl. lia.
Qed.

Definition calculateNearestNeighborOrder (start : Coords)
    (waypoints : list Leg) (endCoords : option Coords) : list Leg :=
  let found :=
    match endCoords with
    | Some e => findIndex (coords_match e) waypoints
    | None => None
    end in
  let endpoint :=
    match found with Some idx => nth_error waypoints idx | None => None end in
  let remaining :=
    match found with Some idx => remove_at idx waypoints | None => waypoints end in
  let ordered := nn_loop start remaining in
  match endpoint with
  | Some e => ordered ++ [e]
  | None => ordered
  end.

(** ** [calculateGreedyInsertionOrder] *)

(** [haversine(prev, stop) + haversine(stop, next) - haversine(prev, next)]. *)
Definition extra_distance (prev next stop : Coords) : R :=
  haversine prev stop + haversine stop next - haversine prev next.

(** The three variables of the search: [bestIncrease] ([None] is
    [Infinity]), [bestIdx] ([None] is -1) and [bestPos]. *)
Record Best := mkBest {
  bestIncrease : option R;
  bestIdx : option nat;
  bestPos : nat
}.

Definition best_init : Best := mkBest None None 1.

(** [increase < bestIncrease]. *)
Definition below_best (increase : R) (b : Best) : bool :=
  match bestIncrease b with
  | None => true
  | Some v => Rltb increase v
  end.

(** The inner [for (let pos = 1; pos < route.length; pos++)] for candidate
    [i], over the adjacent pairs [(route[pos - 1], route[pos])]. *)
Fixpoint scan_positions (stop : Coords) (i : nat) (route : list Leg)
    (pos : nat) (b : Best) : Best :=
  match route with
  | [] => b
  | prev :: tl =>
      match tl with
      | [] => b
      | next :: _ =>
          let increase := extra_distance (coords prev) (coords next) stop in
          scan_positions stop i tl (S pos)
            (if below_best increase b
             then mkBest (Some increase) (Some i) pos
             else b)
      end
  end.

(** The outer [for (let i = 0; i < toInsert.length; i++)]. *)
Fixpoint scan_candidates (route toInsert : list Leg) (i : nat) (b : Best)
    : Best :=
  match toInsert with
  | [] => b
  | c :: rest =>
      scan_candidates route rest (S i) (scan_positions (coords c) i route 1 b)
  end.

Definition find_best (route toInsert : list Leg) : Best :=
  scan_candidates route toInsert 0 best_init.

(** [toInsert[bestIdx]] together with [toInsert] after
    [toInsert.splice(bestIdx, 1)]. *)
Definition take_candidate (toInsert : list Leg) (b : Best)
    : option (Leg * list Leg) :=
  match bestIdx b with
  | Some i =>
      match nth_error toInsert i with
      | Some c => Some (c, remove_at i toInsert)
      | None => None
      end
  | None => None
  end.

Lemma take_candidate_shrinks toInsert b c rest :
  take_candidate toInsert b = Some (c, rest) ->
  (length rest < length toInsert)%nat.
Proof.
  unfold take_candidate. destruct (bestIdx b) as [i|]; [|discriminate].
  destruct (nth_error toInsert i) eqn:E; [|discriminate].
  intros H; inversion H; subst.
  assert (i < length toInsert)%nat by (apply nth_error_Some; congruence).
  rewrite remove_at_length by assumption. lia.
Qed.

(** A value together with the equation that names it. *)
Definition inspect {A : Type} (a : A) : {b : A | a = b} := exist _ a eq_refl.

(** The [while (toInsert.length)] loop.  The last clause is the iteration in
    which no candidate compared below [Infinity] ([bestIdx] still -1); over the
    reals that needs a route of fewer than two legs, which the skeleton
    excludes ([find_best_found] below), and the loop is cut there. *)
Equations? greedy_loop (route toInsert : list Leg) : list Leg
    by wf (length toInsert) lt :=
  greedy_loop route [] := route;
  greedy_loop route (c0 :: more)
    with inspect (take_candidate (c0 :: more) (find_best route (c0 :: more))) := {
    | exist _ (Some (c, rest)) _ =>
        greedy_loop
          (insert_at (bestPos (find_best route (c0 :: more))) c route) rest
    | exist _ None _ => route }.
Proof.
  match goal with
  | H : take_candidate _ _ = Some _ |- _ =>
      apply take_candidate_shrinks in H; simpl in H; lia
  end.
Qed.

Definition is_null (p : Payload) : bool :=
  match p with PNull => true | _ => false end.

(** [if (route[0].waypoint === null) route.shift()] *)
Definition strip_first (route : list Leg) : list Leg :=
  match route with
  | h :: t => if is_null (waypoint h) then t else route
  | [] => []
  end.

(** [if (route.length && route[route.length - 1].waypoint === null)
    route.pop()] *)
Definition strip_last (route : list Leg) : list Leg :=
  match rev route with
  | l :: _ => if is_null (waypoint l) then removelast route else route
  | [] => route
  end.

Definition calculateGreedyInsertionOrder (start : Coords)
    (waypoints : list Leg) (endCoords : option Coords) : list Leg :=
  match waypoints with
  | [] => []
  | w0 :: _ =>
      let closed_loop := [mkLeg start PNull; mkLeg start PNull] in
      let endIdx :=
        match endCoords with
        | Some e => findIndex (coords_match e) waypoints
        | None => None
        end in
      let route :=
        match endIdx with
        | Some i =>
            let endpoint := nth i waypoints w0 in
            [mkLeg start PNull;
             mkLeg (coords endpoint)
                   (PLeg (coords endpoint) (waypoint endpoint))]
        | None => closed_loop
        end in
      let toInsert :=
        match endIdx with
        | Some i => remove_at i waypoints
        | None => waypoints
        end in
      strip_last (strip_first (greedy_loop route toInsert))
  end.

(** ** Collaborators, exceptions and the log *)

Inductive TransportMode := Walking | Cycling | Driving.

(** [data.trips[0]] of a trip response: [geometry.coordinates] (absent or
    not an array: [None]) in [[lon, lat]] order, and [waypoint_order]
    ([None] when it is not an array). *)
Record TripRaw := mkTripRaw {
  raw_trip_geometry : option (list Coords);
  raw_trip_distance : R;
  raw_trip_duration : R;
  raw_waypoint_order : option (list Z)
}.

(** [data.routes[0]] of a route response. *)
Record RouteRaw := mkRouteRaw {
  raw_route_geometry : list Coords;
  raw_route_distance : R;
  raw_route_duration : R
}.

(** The network.  Each field answers one request: the outer [None] is a
    request that throws ([fetch] or [resp.json()]), the inner one a response
    without the wanted element ([data[0]], [data.trips[0]],
    [data.routes[0]]). *)
Record Services := mkServices {
  nominatim : string -> option (option Coords);
  osrm_trip : TransportMode -> list Coords -> bool -> option (option TripRaw);
  osrm_route : TransportMode -> list Coords -> option (option RouteRaw)
}.

Inductive Exn :=
| DestinationNotFound (addr : string)
| EndDestinationNotFound (addr : string)
| NoValidDestinations
| NoOptimalTrip
| MissingGeometry
| OrderIndexOutOfRange (idx : Z)
| NoRoadRoute
| TransportFailure
| TypeError.

Inductive Strategy := SmartInsertion | NearestNeighbor | ProviderTrip.

Inductive Toast :=
| MissingInformation
| NoDestinations
| OnlyOneDestination
| FastRouteCalculated
| RouteSummary (s : Strategy)
| RouteCalculationFailed (e : Exn).

Inductive Event :=
| GeocodeRequest (addr : string)
| TripRequest (profile : TransportMode) (points : list Coords)
    (destination_last : bool)
| SegmentRequest (profile : TransportMode) (points : list Coords)
| ToastShown (t : Toast).

Inductive Outcome (A : Type) :=
| Value (a : A)
| Throw (e : Exn).
Arguments Value {A} a.
Arguments Throw {A} e.

(** A computation: what it logged, and how it ended. *)
Definition M (A : Type) : Type := (list Event * Outcome A)%type.

Definition ret {A} (a : A) : M A := ([], Value a).
Definition throw {A} (e : Exn) : M A := ([], Throw e).
Definition emit (ev : Event) : M unit := ([ev], Value tt).

Definition bind {A B} (m : M A) (k : A -> M B) : M B :=
  let '(log, out) := m in
  match out with
  | Value a => let '(log', out') := k a in (log ++ log', out')
  | Throw e => (log, Throw e)
  end.

(** [try { m } catch { h }] *)
Definition try_catch {A} (m : M A) (h : Exn -> M A) : M A :=
  let '(log, out) := m in
  match out with
  | Value a => (log, Value a)
  | Throw e => let '(log', out') := h e in (log ++ log', out')
  end.

Notation "x <- m ;; k" := (bind m (fun x => k))
  (at level 61, m at next level, right associativity).
Notation "m ;;; k" := (bind m (fun _ => k))
  (at level 61, right associativity).

(** ** [geocodeAddress] and [fetchOSRMRoute] ([routeUtils.ts]) *)

Definition geocodeAddress (sv : Services) (addr : string)
    : M (option Coords) :=
  emit (GeocodeRequest addr) ;;;
  ret (match nominatim sv addr with
       | Some (Some c) => Some c
       | _ => None
       end).

Record SegmentRoute := mkSegmentRoute {
  seg_geometry : list Coords;
  seg_distance : R;
  seg_duration : R
}.

Definition fetchOSRMRoute (sv : Services) (mode : TransportMode)
    (start : Coords) (destinations : list Leg) : M SegmentRoute :=
  let waypoints := start :: map coords destinations in
  emit (SegmentRequest mode waypoints) ;;;
  match osrm_route sv mode waypoints with
  | None => throw TransportFailure
  | Some None => throw NoRoadRoute
  | Some (Some r) =>
      ret (mkSegmentRoute (map swap_axes (raw_route_geometry r))
             (raw_route_distance r) (raw_route_duration r))
  end.

(** ** [fetchOSRMTripRoute] *)

Record TripRoute := mkTripRoute {
  trip_geometry : list Coords;
  trip_distance : R;
  trip_duration : R;
  waypoint_order : option (list Z);
  reordered : list Leg
}.

(** [order.map(idx => ...)]: [destinations[idx]], or the throw when there is
    no such element. *)
Fixpoint pick_order (destinations : list Leg) (order : list Z)
    : M (list Leg) :=
  match order with
  | [] => ret []
  | idx :: more =>
      match (if (0 <=? idx)%Z then nth_error destinations (Z.to_nat idx)
             else None) with
      | Some dest =>
          picked <- pick_order destinations more ;;
          ret (mkLeg (coords dest) (waypoint dest) :: picked)
      | None => throw (OrderIndexOutOfRange idx)
      end
  end.

(** [destinations.map((_, idx) => idx)] *)
Definition identity_order (destinations : list Leg) : list Z :=
  map Z.of_nat (seq 0 (length destinations)).

Definition is_some {A} (o : option A) : bool :=
  match o with Some _ => true | None => false end.

Definition fetchOSRMTripRoute (sv : Services) (mode : TransportMode)
    (start : Coords) (destinations : list Leg) (endCoords : option Coords)
    : M TripRoute :=
  let points :=
    (start :: map coords destinations) ++
    match endCoords with Some e => [e] | None => [] end in
  emit (TripRequest mode points (is_some endCoords)) ;;;
  match osrm_trip sv mode points (is_some endCoords) with
  | None => throw TransportFailure
  | Some None => throw NoOptimalTrip
  | Some (Some t) =>
      match raw_trip_geometry t with
      | None => throw MissingGeometry
      | Some geometry =>
          reordered <-
            match destinations with
            | [] => ret []
            | _ :: _ =>
                let order :=
                  match raw_waypoint_order t with
                  | Some o =>
                      if (length o =? length destinations)%nat then o
                      else identity_order destinations
                  | None => identity_order destinations
                  end in
                pick_order destinations order
            end ;;
          ret (mkTripRoute (map swap_axes geometry) (raw_trip_distance t)
                 (raw_trip_duration t) (raw_waypoint_order t) reordered)
      end
  end.

(** ** [calculateMultiPointRoute] *)

(** White space that [String.prototype.trim] removes, within ASCII. *)
Definition is_space (c : ascii) : bool :=
  match nat_of_ascii c with
  | 9 | 10 | 11 | 12 | 13 | 32 => true
  | _ => false
  end%nat.

(** [s.trim() === ""] *)
Fixpoint is_blank (s : string) : bool :=
  match s with
  | EmptyString => true
  | String c s' => is_space c && is_blank s'
  end.

(** [currentLocation], a [LocationData] of which the latitude, the longitude
    and the address are read. *)
Record CurrentLocation := mkCurrentLocation {
  cl_latitude : R;
  cl_longitude : R;
  cl_address : option string
}.

(** [{ ...waypoint, coordinates }] *)
Definition with_coordinates (w : Waypoint) (c : Coords) : Waypoint :=
  mkWaypoint (wp_id w) (wp_address w) (wp_name w) (Some c) (wp_visited w)
    (wp_isEndPoint w).

(** A geocoded stop as a leg: [{ coords: wp.coordinates, waypoint: wp }]. *)
Definition leg_of (w : Waypoint) (c : Coords) : Leg :=
  mkLeg c (PStop (with_coordinates w c)).

(** The [for (const waypoint of intermediateWaypoints)] geocoding loop; its
    result is already mapped to legs (the code's [intermediate]). *)
Fixpoint geocode_stops (sv : Services) (stops : list Waypoint)
    : M (list Leg) :=
  match stops with
  | [] => ret []
  | waypoint :: more =>
      coordinates <- geocodeAddress sv (wp_address waypoint) ;;
      match coordinates with
      | None => throw (DestinationNotFound (wp_address waypoint))
      | Some c =>
          geocoded <- geocode_stops sv more ;;
          ret (leg_of waypoint c :: geocoded)
      end
  end.

Definition geocode_end (sv : Services) (endWaypoint : option Waypoint)
    : M (option Leg) :=
  match endWaypoint with
  | None => ret None
  | Some w =>
      coordinates <- geocodeAddress sv (wp_address w) ;;
      match coordinates with
      | None => throw (EndDestinationNotFound (wp_address w))
      | Some c => ret (Some (leg_of w c))
      end
  end.

(** [!tripResp.waypoint_order ||
     tripResp.waypoint_order.length !== intermediate.length] *)
Definition order_unusable (t : TripRoute) (n : nat) : bool :=
  match waypoint_order t with
  | None => true
  | Some o => negb (length o =? n)%nat
  end.

(** The inner [try]/[catch] around the trip request: [tripResp] and
    [useGreedyInsertion]. *)
Definition attempt_trip (sv : Services) (startCoords : Coords)
    (intermediate : list Leg) (endCoords : option Coords)
    : M (option TripRoute * bool) :=
  try_catch
    (tripResp <- fetchOSRMTripRoute sv Driving startCoords intermediate
                   endCoords ;;
     if (1 <? length intermediate)%nat
        && order_unusable tripResp (length intermediate)
     then emit (ToastShown FastRouteCalculated) ;;; ret (Some tripResp, true)
     else ret (Some tripResp, false))
    (fun _ => emit (ToastShown FastRouteCalculated) ;;; ret (None, true)).

(** [allCoords], [totalDist] and [totalDur] of the stitching loops. *)
Record Stitched := mkStitched {
  allCoords : list Coords;
  totalDist : R;
  totalDur : R
}.

(** One iteration of [for (let i = 0; i < reordered.length; i++)]: the
    segment request for the leg from [segStart] to [reordered[i]], and its
    [catch]. *)
Definition stitch_leg (sv : Services) (segStart : Coords) (leg : Leg)
    (acc : Stitched) : M Stitched :=
  let segEnd := coords leg in
  try_catch
    (segRoute <- fetchOSRMRoute sv Driving segStart
                   [mkLeg segEnd (waypoint leg)] ;;
     ret (mkStitched
            (if (0 <? length (allCoords acc))%nat
                && (1 <? length (seg_geometry segRoute))%nat
             then allCoords acc ++ tl (seg_geometry segRoute)
             else allCoords acc ++ seg_geometry segRoute)
            (totalDist acc + seg_distance segRoute)
            (totalDur acc + seg_duration segRoute)))
    (fun _ =>
       let speedMps := 13 in
       ret (mkStitched
              (allCoords acc ++ [(snd segEnd, fst segEnd)])
              (totalDist acc + haversine segStart segEnd)
              (totalDur acc + haversine segStart segEnd / speedMps))).

Fixpoint stitch_legs (sv : Services) (prev : Coords) (legs : list Leg)
    (acc : Stitched) : M Stitched :=
  match legs with
  | [] => ret acc
  | leg :: more =>
      acc' <- stitch_leg sv prev leg acc ;;
      stitch_legs sv (coords leg) more acc'
  end.

(** [shownDuration] *)
Definition compensate (transportMode : TransportMode) (totalDur : R) : R :=
  match transportMode with
  | Walking => totalDur * 3
  | Cycling => totalDur * 1.5
  | Driving => totalDur
  end.

(** [reorderedWp.waypoint.<field>]: a [TypeError] on [null], [undefined] on
    an object without the field. *)
Definition payload_field (f : Waypoint -> option string) (p : Payload)
    : M (option string) :=
  match p with
  | PNull => throw TypeError
  | PStop w => ret (f w)
  | PLeg _ _ => ret None
  end.

Definition nonblank (s : option string) : bool :=
  match s with Some v => negb (is_blank v) | None => false end.

Definition nonempty (s : string) : bool :=
  match s with EmptyString => false | _ => true end.

(** The callback of [reordered.map((reorderedWp, idx) => ...)]. *)
Definition label_waypoint (endWaypoint : option Waypoint) (len idx : nat)
    (reorderedWp : Leg) : M LocationData :=
  let esUltimo :=
    if (idx =? len - 1)%nat then endWaypoint else None in
  let w := waypoint reorderedWp in
  address <-
    match esUltimo with
    | Some e =>
        if nonblank (Some (wp_address e)) then ret (Some (wp_address e))
        else payload_field (fun s => Some (wp_address s)) w
    | None => payload_field (fun s => Some (wp_address s)) w
    end ;;
  name <-
    match esUltimo with
    | Some e =>
        if nonblank (wp_name e) then ret (wp_name e)
        else payload_field wp_name w
    | None => payload_field wp_name w
    end ;;
  id <-
    match esUltimo with
    | Some e =>
        if nonempty (wp_id e) then ret (Some (wp_id e))
        else payload_field (fun s => Some (wp_id s)) w
    | None => payload_field (fun s => Some (wp_id s)) w
    end ;;
  ret (mkLocationData (snd (coords reorderedWp)) (fst (coords reorderedWp))
         address name id (idx + 1)).

Fixpoint label_from (endWaypoint : option Waypoint) (len idx : nat)
    (legs : list Leg) : M (list LocationData) :=
  match legs with
  | [] => ret []
  | leg :: more =>
      x <- label_waypoint endWaypoint len idx leg ;;
      xs <- label_from endWaypoint len (S idx) more ;;
      ret (x :: xs)
  end.

(** The first element of [greedyWaypoints]. *)
Definition start_waypoint (loc : CurrentLocation) : LocationData :=
  mkLocationData (cl_latitude loc) (cl_longitude loc)
    (Some (match cl_address loc with
           | Some a => if nonempty a then a else "Your Location"%string
           | None => "Your Location"%string
           end))
    (Some "Your Location"%string) (Some "start"%string) 0.

(** The branch on [useGreedyInsertion] and [useNearestNeighbor] (the latter
    is never set): [reordered] with the path, distance and duration that go
    with it. *)
Definition order_and_stitch (sv : Services) (startCoords : Coords)
    (intermediate : list Leg) (geocodedEnd : option Leg)
    (tripResp : option TripRoute) (useGreedyInsertion : bool)
    : M (list Leg * Stitched) :=
  let useNearestNeighbor := false in
  let endCoords := option_map coords geocodedEnd in
  let withEnd :=
    intermediate ++ match geocodedEnd with Some e => [e] | None => [] end in
  if useGreedyInsertion then
    let reordered :=
      calculateGreedyInsertionOrder startCoords withEnd endCoords in
    s <- stitch_legs sv startCoords reordered (mkStitched [] 0 0) ;;
    ret (reordered, s)
  else if useNearestNeighbor then
    let reordered :=
      calculateNearestNeighborOrder startCoords withEnd endCoords in
    s <- stitch_legs sv startCoords reordered (mkStitched [] 0 0) ;;
    ret (reordered, s)
  else
    match tripResp with
    | Some t =>
        ret (reordered t,
             mkStitched (trip_geometry t) (trip_distance t) (trip_duration t))
    | None => throw TypeError
    end.

Definition strategy_of (useGreedyInsertion : bool) : Strategy :=
  let useNearestNeighbor := false in
  if useGreedyInsertion then SmartInsertion
  else if useNearestNeighbor then NearestNeighbor
  else ProviderTrip.

(** Duration compensation, [greedyWaypoints], [setRouteData] and the summary
    toast. *)
Definition assemble (loc : CurrentLocation) (transportMode : TransportMode)
    (endWaypoint : option Waypoint) (useGreedyInsertion : bool)
    (reordered : list Leg) (s : Stitched) : M RouteData :=
  let shownDuration := compensate transportMode (totalDur s) in
  labelled <- label_from endWaypoint (length reordered) 0 reordered ;;
  let greedyWaypoints := start_waypoint loc :: labelled in
  emit (ToastShown (RouteSummary (strategy_of useGreedyInsertion))) ;;;
  ret (mkRouteData (totalDist s) shownDuration (allCoords s) greedyWaypoints).

(** The body of the outer [try].  Drawing on the map, the loading flag and the
    cache of last durations take no part in the route and are left out. *)
Definition route_body (sv : Services) (loc : CurrentLocation)
    (transportMode : TransportMode) (intermediateWaypoints : list Waypoint)
    (endWaypoint : option Waypoint) : M RouteData :=
  intermediate <- geocode_stops sv intermediateWaypoints ;;
  geocodedEnd <- geocode_end sv endWaypoint ;;
  let endCoords := option_map coords geocodedEnd in
  let startCoords := (cl_longitude loc, cl_latitude loc) in
  (match intermediate, geocodedEnd with
   | [], None => throw NoValidDestinations
   | _, _ => ret tt
   end) ;;;
  attempt <- attempt_trip sv startCoords intermediate endCoords ;;
  routed <- order_and_stitch sv startCoords intermediate geocodedEnd
              (fst attempt) (snd attempt) ;;
  assemble loc transportMode endWaypoint (snd attempt) (fst routed)
    (snd routed).

(** How an invocation ends: it returned before the [try] (after a toast), the
    outer [catch] reported an exception, or [setRouteData] received a route. *)
Inductive Result :=
| NotStarted
| RouteFailed (e : Exn)
| RouteSet (r : RouteData).

(** [!wp.visited && wp.address.trim() !== ""] *)
Definition available (wp : Waypoint) : bool :=
  negb (wp_visited wp) && negb (is_blank (wp_address wp)).

Definition calculateMultiPointRoute (sv : Services)
    (currentLocation : option CurrentLocation) (leaflet : bool)
    (transportMode : TransportMode) (waypoints : list Waypoint)
    : list Event * Result :=
  match currentLocation, leaflet with
  | Some loc, true =>
      let availableWaypoints := filter available waypoints in
      match availableWaypoints with
      | [] => ([ToastShown NoDestinations], NotStarted)
      | _ :: _ =>
          let single :=
            if (length availableWaypoints =? 1)%nat
            then [ToastShown OnlyOneDestination] else [] in
          let endWaypointIndex := findIndex wp_isEndPoint availableWaypoints in
          let endWaypoint :=
            match endWaypointIndex with
            | Some i => nth_error availableWaypoints i
            | None => None
            end in
          let intermediateWaypoints :=
            match endWaypointIndex with
            | Some i => remove_at i availableWaypoints
            | None => availableWaypoints
            end in
          let '(log, out) :=
            route_body sv loc transportMode intermediateWaypoints endWaypoint in
          match out with
          | Value r => (single ++ log, RouteSet r)
          | Throw e =>
              (single ++ log ++ [ToastShown (RouteCalculationFailed e)],
               RouteFailed e)
          end
      end
  | _, _ => ([ToastShown MissingInformation], NotStarted)
  end.

(** ** The stop list ([RouteSidebar.tsx], [RouteApp.tsx])

    The handlers pass an updater to [setWaypoints]; each is given here as
    that updater, a function of the list it is applied to. *)

(** [{ ...wp, visited }] and [{ ...wp, isEndPoint }]. *)
Definition with_visited (wp : Waypoint) (v : bool) : Waypoint :=
  mkWaypoint (wp_id wp) (wp_address wp) (wp_name wp) (wp_coordinates wp) v
    (wp_isEndPoint wp).

Definition with_isEndPoint (wp : Waypoint) (e : bool) : Waypoint :=
  mkWaypoint (wp_id wp) (wp_address wp) (wp_name wp) (wp_coordinates wp)
    (wp_visited wp) e.

Definition handleToggleVisited (id : string) (wps : list Waypoint)
    : list Waypoint :=
  map (fun wp =>
         if String.eqb (wp_id wp) id
         then with_visited wp (negb (wp_visited wp))
         else wp) wps.

Definition handleSetEndPoint (id : string) (wps : list Waypoint)
    : list Waypoint :=
  map (fun wp =>
         if String.eqb (wp_id wp) id
         then with_isEndPoint wp true
         else with_isEndPoint wp false) wps.

(** [onRemoveWaypoint]: the guard reads the list of the current render, the
    updater filters the list it is applied to; they are the same list here. *)
Definition onRemoveWaypoint (id : string) (waypoints : list Waypoint)
    : list Waypoint :=
  if (1 <? length waypoints)%nat
  then filter (fun wp => negb (String.eqb (wp_id wp) id)) waypoints
  else waypoints.

(** [onAddWaypoint], with the identifier that [generateUID] returns. *)
Definition onAddWaypoint (uid : string) (prev : list Waypoint)
    : list Waypoint :=
  prev ++ [mkWaypoint uid "" (Some ""%string) None false false].

(** The field argument of [onUpdateWaypoint]. *)
Inductive Field := FAddress | FName.

Definition onUpdateWaypoint (id value : string) (field : Field)
    (wps : list Waypoint) : list Waypoint :=
  map (fun wp =>
         if String.eqb (wp_id wp) id
         then match field with
              | FAddress =>
                  mkWaypoint (wp_id wp) value (wp_name wp) (wp_coordinates wp)
                    (wp_visited wp) (wp_isEndPoint wp)
              | FName =>
                  mkWaypoint (wp_id wp) (wp_address wp) (Some value)
                    (wp_coordinates wp) (wp_visited wp) (wp_isEndPoint wp)
              end
         else wp) wps.

(** The condition under which the effect on [transportMode] of [RouteApp]
    recalculates the route. *)
Definition recalculates (currentLocation : option CurrentLocation)
    (waypoints : list Waypoint) : bool :=
  is_some currentLocation && existsb available waypoints.

(** ** Text

    The methods of [String.prototype] that the code uses, within ASCII, and
    the decimal text of an integer in a template literal. *)

(** [s.trim()]: [s] without the white space at its start and at its end. *)
Fixpoint trimStart (s : string) : string :=
  match s with
  | EmptyString => EmptyString
  | String c s' => if is_space c then trimStart s' else s
  end.

Fixpoint trimEnd (s : string) : string :=
  match s with
  | EmptyString => EmptyString
  | String c s' =>
      match trimEnd s' with
      | EmptyString => if is_space c then EmptyString else String c EmptyString
      | t => String c t
      end
  end.

Definition trim (s : string) : string := trimEnd (trimStart s).

(** [s.split(sep)] for a separator of one character. *)
Fixpoint split (sep : ascii) (s : string) : list string :=
  match s with
  | EmptyString => [EmptyString]
  | String c s' =>
      if Ascii.eqb c sep then EmptyString :: split sep s'
      else match split sep s' with
           | piece :: pieces => String c piece :: pieces
           | [] => [String c EmptyString]
           end
  end.

Definition show_int (z : Z) : string := NilZero.string_of_int (Z.to_int z).

Definition show_nat (n : nat) : string :=
  NilZero.string_of_uint (Nat.to_uint n).

(** ** [formatDistance] and [formatDuration] ([routeUtils.ts]) *)


(** [Math.trunc], as the quotient of [%] is taken. *)
Definition trunc (x : R) : Z := if Rle_dec 0 x then Zfloor x else Zceil x.

(** [x % y] *)
Definition js_rem (x y : R) : R := x - y * IZR (trunc (x / y)).



Definition formatDuration (duration : R) : string :=
  let hours := Zfloor (duration / 3600) in
  let minutes := Zfloor (js_rem duration 3600 / 60) in
  if (0 <? hours)%Z
  then (show_int hours ++ "h " ++ show_int minutes ++ "m")%string
  else (show_int minutes ++ "m")%string.

(** ** The legend ([MapDisplay.tsx]) *)

(** A string as the operand of [||]: the empty string is falsy. *)
Definition truthy (s : option string) : option string :=
  match s with
  | Some v => if nonempty v then Some v else None
  | None => None
  end.

(** [stopLabel] of a waypoint of the route. *)
Definition stopLabel (wp : LocationData) : string :=
  let isFirst := (displayNumber wp =? 0)%nat in
  if isFirst then "Your Location"%string
  else
    match truthy (option_map trim (name wp)) with
    | Some label => label
    | None =>
        match truthy (option_map (fun a => hd EmptyString (split "," a))
                        (address wp)) with
        | Some label => label
        | None => ("Stop " ++ show_nat (displayNumber wp))%string
        end
    end.

(** ** The import of a text file ([handleFileUpload], [RouteSidebar.tsx]) *)

(** The callback of [lines.map], with the identifier that [generateUID]
    returns for the line. *)
Definition parse_line (uid line : string) : Waypoint :=
  match String.index 0 "," line with
  | Some firstComma =>
      mkWaypoint uid
        (trim (String.substring (firstComma + 1)
                 (String.length line - (firstComma + 1)) line))
        (Some (trim (String.substring 0 firstComma line)))
        None false false
  | None => mkWaypoint uid (trim line) (Some EmptyString) None false false
  end.

(** [lines.map(...)], the [i]-th call of [generateUID] returning [uids i]. *)
Fixpoint parse_lines (uids : nat -> string) (i : nat) (lines : list string)
    : list Waypoint :=
  match lines with
  | [] => []
  | line :: more => parse_line (uids i) line :: parse_lines uids (S i) more
  end.

(** The [reader.onload] of the text branch: the stop list after it, for the
    text of the file and the stop list before. *)
Definition handleFileUpload (uids : nat -> string) (text : string)
    (waypoints : list Waypoint) : list Waypoint :=
  let lines :=
    filter (fun l => (0 <? String.length l)%nat)
      (map trim (split "010" text)) in
  let newWaypoints :=
    filter (fun wp => nonempty (wp_address wp)) (parse_lines uids 0 lines) in
  if (0 <? List.length newWaypoints)%nat then newWaypoints else waypoints.

(** ** The selected end point of the panel ([ControlsPanel])

    [waypoints.find(wp => wp.isEndPoint)] *)
Definition endpoint (waypoints : list Waypoint) : option Waypoint :=
  find wp_isEndPoint waypoints.

(** ** Specification-side definitions *)


(** A possible insertion: candidate index, position, extra distance. *)
Definition Insertion : Type := (nat * nat * R)%type.

Definition ins_idx (e : Insertion) : nat := fst (fst e).
Definition ins_pos (e : Insertion) : nat := snd (fst e).
Definition ins_cost (e : Insertion) : R := snd e.

(** The insertions of one candidate, by position: one for every adjacent
    pair [(prev, next)] of the route. *)
Fixpoint row (stop : Coords) (i : nat) (route : list Leg) (pos : nat)
    : list Insertion :=
  match route with
  | [] => []
  | prev :: tl =>
      match tl with
      | [] => []
      | next :: _ =>
          (i, pos, extra_distance (coords prev) (coords next) stop)
          :: row stop i tl (S pos)
      end
  end.

(** All insertions, by candidate index and then by position. *)
Fixpoint rows (route toInsert : list Leg) (i : nat) : list Insertion :=
  match toInsert with
  | [] => []
  | c :: rest => row (coords c) i route 1 ++ rows route rest (S i)
  end.

Definition insertions (route toInsert : list Leg) : list Insertion :=
  rows route toInsert 0.

(** The extra distance of inserting candidate [i] at position [pos], for
    [0 <= i < toInsert.length] and [1 <= pos < route.length]. *)
Definition insertion_cost (route toInsert : list Leg) (i pos : nat)
    : option R :=
  match pos, nth_error toInsert i with
  | S k, Some c =>
      match nth_error route k, nth_error route (S k) with
      | Some prev, Some next =>
          Some (extra_distance (coords prev) (coords next) (coords c))
      | _, _ => None
      end
  | _, _ => None
  end.

(** [(i', pos')] comes before [(i, pos)]: lower candidate index, or the same
    candidate and a lower position. *)
Definition comes_before (i' pos' i pos : nat) : Prop :=
  (i' < i)%nat \/ (i' = i /\ (pos' < pos)%nat).

(** The choice the claim describes: the insertion of least extra distance,
    and among equals the one that comes first. *)
Definition cheapest_insertion (route toInsert : list Leg) (i pos : nat)
    : Prop :=
  exists v,
    insertion_cost route toInsert i pos = Some v /\
    forall i' pos' v',
      insertion_cost route toInsert i' pos' = Some v' ->
      v <= v' /\ (comes_before i' pos' i pos -> v < v').

(** The run the claim describes, from a route and a pool of candidates to the
    route in which all of them are placed. *)
Inductive insertion_run : list Leg -> list Leg -> list Leg -> Prop :=
| run_done route : insertion_run route [] route
| run_step route toInsert i pos c final :
    cheapest_insertion route toInsert i pos ->
    nth_error toInsert i = Some c ->
    insertion_run (insert_at pos c route) (remove_at i toInsert) final ->
    insertion_run route toInsert final.

(** What [geocodeAddress] returns for an address. *)
Definition resolve (sv : Services) (addr : string) : option Coords :=
  match nominatim sv addr with
  | Some (Some c) => Some c
  | _ => None
  end.

(** [endWaypoint] and [intermediateWaypoints] of the available stops. *)
Definition endWaypoint_of (avail : list Waypoint) : option Waypoint :=
  match findIndex wp_isEndPoint avail with
  | Some i => nth_error avail i
  | None => None
  end.

Definition intermediate_of (avail : list Waypoint) : list Waypoint :=
  match findIndex wp_isEndPoint avail with
  | Some i => remove_at i avail
  | None => avail
  end.

(** The order in which the stops are geocoded: the intermediate stops, then
    the end stop. *)
Definition geocoding_order (waypoints : list Waypoint) : list Waypoint :=
  let avail := filter available waypoints in
  intermediate_of avail ++
  match endWaypoint_of avail with Some e => [e] | None => [] end.

(** The legs of the stops whose addresses resolve. *)
Definition geocoded_legs (sv : Services) (stops : list Waypoint) : list Leg :=
  flat_map (fun w => match resolve sv (wp_address w) with
                     | Some c => [leg_of w c]
                     | None => []
                     end) stops.

Definition is_toast (ev : Event) : bool :=
  match ev with ToastShown _ => true | _ => false end.

(** The network requests of a log, in order. *)
Definition network_requests (log : list Event) : list Event :=
  filter (fun ev => negb (is_toast ev)) log.

(** The addresses geocoded in a log, in order. *)
Definition geocoded_addresses (log : list Event) : list string :=
  flat_map (fun ev => match ev with GeocodeRequest a => [a] | _ => [] end) log.

(** The segment provider's answers for the consecutive legs of an order. *)
Fixpoint segment_answers (sv : Services) (prev : Coords) (legs : list Leg)
    : list (option (option RouteRaw)) :=
  match legs with
  | [] => []
  | leg :: more =>
      osrm_route sv Driving [prev; coords leg]
      :: segment_answers sv (coords leg) more
  end.

(** The path of an answered leg, in [[lat, lon]] order. *)
Definition leg_path (r : RouteRaw) : list Coords :=
  map swap_axes (raw_route_geometry r).

(** What a leg adds to a path that already has points: its own path without
    the first point, unless that is its only point. *)
Definition later_leg_path (r : RouteRaw) : list Coords :=
  if (1 <? length (leg_path r))%nat then tl (leg_path r) else leg_path r.




(** The leg of the end stop, when there is one and its address resolves. *)
Definition geocoded_end (sv : Services) (endWaypoint : option Waypoint)
    : option Leg :=
  match endWaypoint with
  | Some e => option_map (leg_of e) (resolve sv (wp_address e))
  | None => None
  end.

Definition end_list {A} (o : option A) : list A :=
  match o with Some x => [x] | None => [] end.

(** The position of a waypoint of the route, as [[lon, lat]]. *)
Definition position (x : LocationData) : Coords := (longitude x, latitude x).

(** An index of [destinations]. *)
Definition in_range (n : nat) (idx : Z) : Prop := (0 <= idx < Z.of_nat n)%Z.

(** The legs at the indexes of an order, in the order's order. *)
Definition picked_legs (destinations : list Leg) (order : list Z) : list Leg :=
  flat_map (fun idx => end_list (nth_error destinations (Z.to_nat idx))) order.

(** One segment request per leg, from the start to the first leg and from
    each leg to the next. *)
Fixpoint segment_events (prev : Coords) (legs : list Leg) : list Event :=
  match legs with
  | [] => []
  | leg :: more =>
      SegmentRequest Driving [prev; coords leg]
      :: segment_events (coords leg) more
  end.


(** * Properties *)

(** ** [haversine] along a meridian *)

Lemma atan2_pos y x : 0 < x -> atan2 y x = atan (y / x).
Proof. intros H. unfold atan2. destruct (Rlt_dec 0 x); [reflexivity|lra]. Qed.

Lemma atan_abs_tan x :
  - (PI / 2) < x < PI / 2 -> atan (Rabs (sin x) / cos x) = Rabs x.
Proof.
  intros [Hl Hu]. pose proof PI_RGT_0 as Hpi.
  destruct (Rle_lt_dec 0 x) as [Hx|Hx].
  - rewrite (Rabs_right x) by lra.
    rewrite Rabs_right by (apply Rle_ge, sin_ge_0; lra).
    change (sin x / cos x) with (tan x). apply atan_tan; lra.
  - rewrite (Rabs_left x) by lra.
    rewrite Rabs_left by (apply sin_lt_0_var; lra).
    rewrite <- sin_neg, <- (cos_neg x).
    change (sin (- x) / cos (- x)) with (tan (- x)). apply atan_tan; lra.
Qed.

Lemma haversine_meridian lon lat1 lat2 :
  Rabs (lat2 - lat1) < 180 ->
  haversine (lon, lat1) (lon, lat2) =
  6371000 * (Rabs (lat2 - lat1) * (PI / 180)).
Proof.
  intros Hd. pose proof PI_RGT_0 as Hpi. unfold haversine, toRad.
  set (x := (lat2 - lat1) * PI / 180 / 2).
  assert (Hx : - (PI / 2) < x < PI / 2).
  { unfold x. apply Rabs_def2 in Hd. destruct Hd as [Hd1 Hd2]. split; nra. }
  replace ((lon - lon) * PI / 180 / 2) with 0 by lra.
  rewrite sin_0.
  replace (sin x ^ 2 + cos (lat1 * PI / 180) * cos (lat2 * PI / 180) * 0 ^ 2)
    with (Rsqr (sin x)) by (unfold Rsqr; ring).
  assert (Hc : 0 < cos x) by (apply cos_gt_0; lra).
  replace (1 - Rsqr (sin x)) with (Rsqr (cos x))
    by (pose proof (sin2_cos2 x); lra).
  rewrite sqrt_Rsqr_abs, (sqrt_Rsqr (cos x)) by lra.
  rewrite atan2_pos by assumption.
  rewrite atan_abs_tan by assumption.
  unfold x.
  replace ((lat2 - lat1) * PI / 180 / 2)
    with ((lat2 - lat1) * (PI / 360)) by lra.
  rewrite Rabs_mult, (Rabs_right (PI / 360)) by lra. lra.
Qed.

(** ** Nearest neighbour *)

Section NearestScan.
Variable current : Coords.

Let d (wp : Leg) : R := haversine current (coords wp).



End NearestScan.



Lemma coords_match_true e wp : coords_match e wp = true <-> coords wp = e.
Proof.
  unfold coords_match. rewrite andb_true_iff, !Reqb_true.
  destruct (coords wp), e; simpl. split.
  - intros [-> ->]. reflexivity.
  - intros H; inversion H; auto.
Qed.

Lemma findIndex_exists {A} (p : A -> bool) l x :
  In x l -> p x = true -> exists i, findIndex p l = Some i.
Proof.
  intros Hin Hp. destruct (findIndex p l) as [i|] eqn:E; [eauto|].
  rewrite findIndex_None in E. rewrite (E x Hin) in Hp. discriminate.
Qed.


Lemma meridian_distance_back lat1 lat2 :
  0 <= lat1 - lat2 < 180 ->
  haversine (0, lat1) (0, lat2) = 6371000 * ((lat1 - lat2) * (PI / 180)).
Proof.
  intros H. rewrite haversine_meridian.
  - rewrite Rabs_left1 by lra. lra.
  - rewrite Rabs_left1; lra.
Qed.


(** ** Greedy insertion: the search *)

Definition consider (b : Best) (e : Insertion) : Best :=
  if below_best (ins_cost e) b
  then mkBest (Some (ins_cost e)) (Some (ins_idx e)) (ins_pos e)
  else b.

Lemma scan_positions_fold stop i route : forall pos b,
  scan_positions stop i route pos b = fold_left consider (row stop i route pos) b.
Proof.
  induction route as [|prev tl IH]; intros pos b; [reflexivity|].
  destruct tl as [|next tl']; [reflexivity|].
  change (scan_positions stop i (prev :: next :: tl') pos b)
    with (scan_positions stop i (next :: tl') (S pos)
            (consider b (i, pos,
               extra_distance (coords prev) (coords next) stop))).
  rewrite IH. reflexivity.
Qed.

Lemma scan_candidates_fold route toInsert : forall i b,
  scan_candidates route toInsert i b =
  fold_left consider (rows route toInsert i) b.
Proof.
  induction toInsert as [|c rest IH]; intros i b; [reflexivity|].
  simpl. rewrite fold_left_app, IH, scan_positions_fold. reflexivity.
Qed.

Definition best_of (e : Insertion) : Best :=
  mkBest (Some (ins_cost e)) (Some (ins_idx e)) (ins_pos e).

Lemma first_least_fold l : forall pre n0 e0,
  nth_error pre n0 = Some e0 ->
  (forall e, In e pre -> ins_cost e0 <= ins_cost e) ->
  (forall j e, (j < n0)%nat -> nth_error pre j = Some e ->
               ins_cost e0 < ins_cost e) ->
  exists n e,
    nth_error (pre ++ l) n = Some e /\
    fold_left consider l (best_of e0) = best_of e /\
    (forall e', In e' (pre ++ l) -> ins_cost e <= ins_cost e') /\
    (forall j e', (j < n)%nat -> nth_error (pre ++ l) j = Some e' ->
                  ins_cost e < ins_cost e').
Proof.
  induction l as [|x l IH]; intros pre n0 e0 Hn Hle Hlt.
  - exists n0, e0. rewrite app_nil_r. auto.
  - assert (Hin : (n0 < length pre)%nat)
      by (apply nth_error_Some; congruence).
    replace (pre ++ x :: l) with ((pre ++ [x]) ++ l)
      by (rewrite <- app_assoc; reflexivity).
    simpl. unfold consider at 2. unfold below_best. simpl.
    destruct (Rltb (ins_cost x) (ins_cost e0)) eqn:E.
    + apply Rltb_true in E. fold (best_of x).
      apply (IH (pre ++ [x]) (length pre) x).
      * rewrite nth_error_app2, Nat.sub_diag by lia. reflexivity.
      * intros y Hy. apply in_app_or in Hy. destruct Hy as [Hy|[<-|[]]].
        -- specialize (Hle y Hy). lra.
        -- lra.
      * intros j y Hj Hy. rewrite nth_error_app1 in Hy by lia.
        apply nth_error_In in Hy. specialize (Hle y Hy). lra.
    + apply Rltb_false in E.
      apply (IH (pre ++ [x]) n0 e0).
      * rewrite nth_error_app1 by lia. assumption.
      * intros y Hy. apply in_app_or in Hy. destruct Hy as [Hy|[<-|[]]]; auto.
      * intros j y Hj Hy. rewrite nth_error_app1 in Hy by lia. eauto.
Qed.

Lemma find_best_first_least route toInsert e0 l :
  insertions route toInsert = e0 :: l ->
  exists n e,
    nth_error (insertions route toInsert) n = Some e /\
    find_best route toInsert = best_of e /\
    (forall e', In e' (insertions route toInsert) ->
                ins_cost e <= ins_cost e') /\
    (forall j e', (j < n)%nat ->
                  nth_error (insertions route toInsert) j = Some e' ->
                  ins_cost e < ins_cost e').
Proof.
  intros H. unfold find_best. rewrite scan_candidates_fold.
  fold (insertions route toInsert). rewrite H.
  destruct (first_least_fold l [e0] 0%nat e0) as (n & e & H1 & H2 & H3 & H4);
    simpl; auto.
  - intros e [<-|[]]. lra.
  - intros; lia.
  - exists n, e. auto.
Qed.

Lemma row_length stop i route : forall pos,
  length (row stop i route pos) = (length route - 1)%nat.
Proof.
  induction route as [|prev tl IH]; intros pos; [reflexivity|].
  destruct tl as [|next tl']; [reflexivity|].
  change (row stop i (prev :: next :: tl') pos)
    with ((i, pos, extra_distance (coords prev) (coords next) stop)
          :: row stop i (next :: tl') (S pos)).
  cbn [length]. rewrite IH. cbn [length]. lia.
Qed.

Lemma row_nth stop i route : forall pos k,
  nth_error (row stop i route pos) k =
  match nth_error route k, nth_error route (S k) with
  | Some prev, Some next =>
      Some (i, (pos + k)%nat,
            extra_distance (coords prev) (coords next) stop)
  | _, _ => None
  end.
Proof.
  induction route as [|prev tl IH]; intros pos k.
  - destruct k; reflexivity.
  - destruct tl as [|next tl'].
    + destruct k as [|[|k]]; reflexivity.
    + change (row stop i (prev :: next :: tl') pos)
        with ((i, pos, extra_distance (coords prev) (coords next) stop)
              :: row stop i (next :: tl') (S pos)).
      destruct k as [|k].
      * simpl. rewrite Nat.add_0_r. reflexivity.
      * change (nth_error (_ :: row stop i (next :: tl') (S pos)) (S k))
          with (nth_error (row stop i (next :: tl') (S pos)) k).
        rewrite IH.
        change (nth_error (prev :: next :: tl') (S k))
          with (nth_error (next :: tl') k).
        change (nth_error (prev :: next :: tl') (S (S k)))
          with (nth_error (next :: tl') (S k)).
        replace (S pos + k)%nat with (pos + S k)%nat by lia. reflexivity.
Qed.

Lemma rows_nth route toInsert : forall i0 k j,
  (j < length route - 1)%nat ->
  nth_error (rows route toInsert i0) (k * (length route - 1) + j) =
  match nth_error toInsert k with
  | Some c => nth_error (row (coords c) (i0 + k) route 1) j
  | None => None
  end.
Proof.
  induction toInsert as [|c rest IH]; intros i0 k j Hj.
  - simpl. rewrite nth_error_nil. destruct k; reflexivity.
  - simpl rows. destruct k as [|k].
    + replace (0 * (length route - 1) + j)%nat with j by lia.
      rewrite nth_error_app1 by (rewrite row_length; lia).
      cbn [nth_error]. rewrite Nat.add_0_r. reflexivity.
    + rewrite Nat.mul_succ_l.
      rewrite nth_error_app2 by (rewrite row_length; nia).
      rewrite row_length.
      replace (k * (length route - 1) + (length route - 1) + j
               - (length route - 1))%nat
        with (k * (length route - 1) + j)%nat by nia.
      rewrite IH by assumption. cbn [nth_error].
      replace (S i0 + k)%nat with (i0 + S k)%nat by lia. reflexivity.
Qed.

Lemma rows_inv route toInsert : forall i0 n e,
  nth_error (rows route toInsert i0) n = Some e ->
  exists k c j,
    nth_error toInsert k = Some c /\
    nth_error (row (coords c) (i0 + k) route 1) j = Some e /\
    n = (k * (length route - 1) + j)%nat.
Proof.
  induction toInsert as [|c rest IH]; intros i0 n e H.
  - simpl in H. rewrite nth_error_nil in H. discriminate.
  - simpl in H.
    destruct (Nat.lt_ge_cases n (length (row (coords c) i0 route 1))) as [L|L].
    + rewrite nth_error_app1 in H by assumption.
      exists 0%nat, c, n. rewrite Nat.add_0_r. auto.
    + rewrite nth_error_app2 in H by assumption.
      destruct (IH _ _ _ H) as (k & c' & j & H1 & H2 & H3).
      exists (S k), c', j. rewrite row_length in *.
      replace (i0 + S k)%nat with (S i0 + k)%nat by lia.
      repeat split; auto. rewrite Nat.mul_succ_l. nia.
Qed.

Lemma insertion_cost_bounds route toInsert i pos v :
  insertion_cost route toInsert i pos = Some v ->
  (i < length toInsert)%nat /\ (1 <= pos < length route)%nat.
Proof.
  unfold insertion_cost. destruct pos as [|k]; [discriminate|].
  destruct (nth_error toInsert i) eqn:Ei; [|discriminate].
  destruct (nth_error route k) eqn:Ek; [|discriminate].
  destruct (nth_error route (S k)) eqn:Es; [|discriminate].
  intros _. split.
  - apply nth_error_Some. congruence.
  - split; [lia|]. apply nth_error_Some. congruence.
Qed.

Lemma insertions_at route toInsert i pos v :
  insertion_cost route toInsert i pos = Some v ->
  nth_error (insertions route toInsert)
    (i * (length route - 1) + (pos - 1)) = Some (i, pos, v).
Proof.
  intros H. destruct (insertion_cost_bounds _ _ _ _ _ H) as [Hi Hp].
  unfold insertion_cost in H. destruct pos as [|k]; [discriminate|].
  unfold insertions. rewrite rows_nth by lia.
  destruct (nth_error toInsert i); [|discriminate].
  rewrite row_nth. replace (S k - 1)%nat with k by lia.
  destruct (nth_error route k); [|discriminate].
  destruct (nth_error route (S k)); [|discriminate].
  inversion H; subst. reflexivity.
Qed.

Lemma insertions_inv route toInsert n e :
  nth_error (insertions route toInsert) n = Some e ->
  insertion_cost route toInsert (ins_idx e) (ins_pos e) = Some (ins_cost e) /\
  n = (ins_idx e * (length route - 1) + (ins_pos e - 1))%nat.
Proof.
  intros H. destruct (rows_inv _ _ _ _ _ H) as (k & c & j & H1 & H2 & H3).
  rewrite row_nth in H2.
  destruct (nth_error route j) eqn:Ej; [|discriminate].
  destruct (nth_error route (S j)) eqn:Es; [|discriminate].
  inversion H2; subst. unfold ins_idx, ins_pos, ins_cost, insertion_cost.
  cbn [fst snd Nat.add]. rewrite H1, Ej, Es.
  replace (S j - 1)%nat with j by lia. auto.
Qed.

(** The search finds the cheapest insertion whenever the route has two legs
    or more and a candidate is left: [bestIdx] is never -1 there. *)
Lemma find_best_found a b route c toInsert :
  exists i pos v,
    find_best (a :: b :: route) (c :: toInsert) =
      mkBest (Some v) (Some i) pos /\
    cheapest_insertion (a :: b :: route) (c :: toInsert) i pos /\
    (i < length (c :: toInsert))%nat /\
    (1 <= pos < length (a :: b :: route))%nat.
Proof.
  set (r := a :: b :: route). set (t := c :: toInsert).
  destruct (find_best_first_least r t
              (0%nat, 1%nat, extra_distance (coords a) (coords b) (coords c))
              (row (coords c) 0 (b :: route) 2 ++ rows r toInsert 1))
    as (n & e & Hn & Hb & Hle & Hlt); [reflexivity|].
  destruct (insertions_inv _ _ _ _ Hn) as [Hc Hidx].
  destruct (insertion_cost_bounds _ _ _ _ _ Hc) as [Hi Hp].
  exists (ins_idx e), (ins_pos e), (ins_cost e).
  repeat split; auto; try lia.
  exists (ins_cost e). split; [assumption|].
  intros i' pos' v' Hc'.
  pose proof (insertions_at _ _ _ _ _ Hc') as Hn'.
  destruct (insertion_cost_bounds _ _ _ _ _ Hc') as [Hi' Hp'].
  split.
  - apply (Hle (i', pos', v')). eapply nth_error_In; eauto.
  - intros Hcb.
    apply (Hlt (i' * (length r - 1) + (pos' - 1))%nat (i', pos', v'));
      [|assumption].
    rewrite Hidx. destruct Hcb as [Hlt'|[-> Hlt']]; nia.
Qed.

(** ** Greedy insertion: the loop *)

Lemma greedy_loop_step route c0 more :
  greedy_loop route (c0 :: more) =
  match take_candidate (c0 :: more) (find_best route (c0 :: more)) with
  | Some (c, rest) =>
      greedy_loop (insert_at (bestPos (find_best route (c0 :: more))) c route)
        rest
  | None => route
  end.
Proof.
  simp greedy_loop.
  generalize (inspect (take_candidate (c0 :: more)
                         (find_best route (c0 :: more)))).
  intros [[[c rest]|] e]; simp greedy_loop; rewrite e; reflexivity.
Qed.

Lemma insert_at_app {A} (x last : A) mid : forall pos,
  (pos <= length mid)%nat ->
  insert_at pos x (mid ++ [last]) = insert_at pos x mid ++ [last].
Proof.
  induction mid as [|m mid IH]; intros [|p] H; simpl in *; try reflexivity;
    try lia.
  rewrite IH by lia. reflexivity.
Qed.

(** From a route [first :: mid ++ [last]] the loop places every candidate
    between [first] and [last], one cheapest insertion at a time. *)
Lemma greedy_loop_run pool : forall first mid last,
  exists mid',
    greedy_loop (first :: mid ++ [last]) pool = first :: mid' ++ [last] /\
    insertion_run (first :: mid ++ [last]) pool (first :: mid' ++ [last]) /\
    Permutation (pool ++ mid) mid'.
Proof.
  remember (length pool) as n eqn:Hn. revert pool Hn.
  induction n as [|n IH]; intros pool Hn first mid last.
  - destruct pool; [|discriminate]. exists mid.
    rewrite greedy_loop_equation_1. repeat split; auto. constructor.
  - destruct pool as [|c0 more]; [discriminate|].
    assert (Hshape : exists b tl, mid ++ [last] = b :: tl).
    { destruct mid; simpl; eauto. }
    destruct Hshape as (b & tl & Hshape).
    rewrite greedy_loop_step. rewrite Hshape.
    destruct (find_best_found first b tl c0 more)
      as (i & pos & v & Hb & Hch & Hi & Hp).
    rewrite <- Hshape in *.
    unfold take_candidate. rewrite Hb. cbn [bestIdx bestPos].
    destruct (nth_error (c0 :: more) i) as [c|] eqn:Ec;
      [|apply nth_error_None in Ec; lia].
    destruct pos as [|p]; [lia|].
    assert (Hpm : (p <= length mid)%nat).
    { cbn [length] in Hp. rewrite length_app in Hp. simpl in Hp. lia. }
    assert (Hins : insert_at (S p) c (first :: mid ++ [last]) =
                   first :: insert_at p c mid ++ [last]).
    { cbn [insert_at]. rewrite insert_at_app by assumption. reflexivity. }
    rewrite Hins.
    destruct (IH (remove_at i (c0 :: more))
                (eq_sym (eq_trans (remove_at_length i (c0 :: more) Hi)
                           (f_equal pred (eq_sym Hn))))
                first (insert_at p c mid) last)
      as (mid' & Hg & Hrun & Hperm).
    exists mid'. repeat split; auto.
    + eapply run_step; eauto. rewrite Hins. exact Hrun.
    + rewrite <- Hperm.
      rewrite (remove_at_perm _ _ _ Ec) at 1. simpl.
      rewrite <- insert_at_perm. apply Permutation_middle.
Qed.

Lemma strip_placeholders_closed start placed :
  strip_last (strip_first (mkLeg start PNull :: placed ++ [mkLeg start PNull]))
  = placed.
Proof.
  unfold strip_first. cbn [waypoint is_null]. unfold strip_last.
  rewrite rev_app_distr. cbn [rev app waypoint is_null].
  apply removelast_last.
Qed.

Lemma strip_placeholders_end start placed c p :
  strip_last (strip_first (mkLeg start PNull :: placed ++ [mkLeg c (PLeg c p)]))
  = placed ++ [mkLeg c (PLeg c p)].
Proof.
  unfold strip_first. cbn [waypoint is_null]. unfold strip_last.
  rewrite rev_app_distr. reflexivity.
Qed.



Lemma greedy_closed start w0 wps :
  exists placed,
    insertion_run [mkLeg start PNull; mkLeg start PNull] (w0 :: wps)
      (mkLeg start PNull :: placed ++ [mkLeg start PNull]) /\
    calculateGreedyInsertionOrder start (w0 :: wps) None = placed /\
    Permutation (w0 :: wps) placed.
Proof.
  destruct (greedy_loop_run (w0 :: wps) (mkLeg start PNull) []
              (mkLeg start PNull)) as (placed & Hg & Hrun & Hperm).
  exists placed. rewrite app_nil_r in Hperm. repeat split; auto.
  unfold calculateGreedyInsertionOrder. cbn [app] in Hg. rewrite Hg.
  apply strip_placeholders_closed.
Qed.

Lemma greedy_with_end start wps e x :
  In x wps -> coords x = e ->
  exists i endleg placed,
    findIndex (coords_match e) wps = Some i /\
    nth_error wps i = Some endleg /\ coords endleg = e /\
    insertion_run
      [mkLeg start PNull; mkLeg e (PLeg e (waypoint endleg))]
      (remove_at i wps)
      (mkLeg start PNull :: placed
         ++ [mkLeg e (PLeg e (waypoint endleg))]) /\
    calculateGreedyInsertionOrder start wps (Some e) =
      placed ++ [mkLeg e (PLeg e (waypoint endleg))] /\
    Permutation (remove_at i wps) placed.
Proof.
  intros Hin Hx.
  destruct (findIndex_exists (coords_match e) wps x Hin) as [i Hi];
    [now apply coords_match_true|].
  destruct (findIndex_Some _ _ _ Hi) as (endleg & Hnth & Hm & _).
  apply coords_match_true in Hm.
  destruct (greedy_loop_run (remove_at i wps) (mkLeg start PNull) []
              (mkLeg e (PLeg e (waypoint endleg))))
    as (placed & Hg & Hrun & Hperm).
  exists i, endleg, placed. rewrite app_nil_r in Hperm.
  repeat split; auto.
  unfold calculateGreedyInsertionOrder.
  destruct wps as [|w0 wps']; [destruct Hin|].
  rewrite Hi, (nth_error_nth _ _ w0 Hnth), Hm. cbn [app] in Hg.
  rewrite Hg. apply strip_placeholders_end.
Qed.

Lemma greedy_end_not_found start wps e :
  findIndex (coords_match e) wps = None ->
  calculateGreedyInsertionOrder start wps (Some e) =
  calculateGreedyInsertionOrder start wps None.
Proof.
  intros H. unfold calculateGreedyInsertionOrder. rewrite H. reflexivity.
Qed.

(** Whatever the end, the order holds every leg once: the legs other than the
    end in [placed], and the end leg (re-wrapped) last. *)
Lemma greedy_result_cases start wps endCoords :
  (exists placed,
     calculateGreedyInsertionOrder start wps endCoords = placed /\
     Permutation wps placed) \/
  (exists i endleg placed,
     nth_error wps i = Some endleg /\
     endCoords = Some (coords endleg) /\
     Permutation (remove_at i wps) placed /\
     calculateGreedyInsertionOrder start wps endCoords =
       placed ++ [mkLeg (coords endleg)
                    (PLeg (coords endleg) (waypoint endleg))]).
Proof.
  destruct wps as [|w0 wps']; [left; exists []; split; constructor|].
  destruct endCoords as [e|].
  - destruct (findIndex (coords_match e) (w0 :: wps')) as [i|] eqn:Ei.
    + destruct (findIndex_Some _ _ _ Ei) as (x & Hx & Hm & _).
      apply coords_match_true in Hm.
      destruct (greedy_with_end start (w0 :: wps') e x
                  (nth_error_In _ _ Hx) Hm)
        as (i' & endleg & placed & Hi & Hnth & Hc & _ & Hres & Hperm).
      right. exists i', endleg, placed. subst e. rewrite Hc in *. auto.
    + rewrite (greedy_end_not_found _ _ _ Ei).
      destruct (greedy_closed start w0 wps') as (placed & _ & Hres & Hperm).
      left. eauto.
  - destruct (greedy_closed start w0 wps') as (placed & _ & Hres & Hperm).
    left. eauto.
Qed.

Lemma greedy_length start wps endCoords :
  length (calculateGreedyInsertionOrder start wps endCoords) = length wps.
Proof.
  destruct (greedy_result_cases start wps endCoords)
    as [(placed & -> & Hperm)
       |(i & endleg & placed & Hnth & _ & Hperm & ->)].
  - symmetry. now apply Permutation_length.
  - rewrite length_app, <- (Permutation_length Hperm). simpl.
    rewrite remove_at_length by (apply nth_error_Some; congruence).
    assert (i < length wps)%nat by (apply nth_error_Some; congruence). lia.
Qed.


Lemma greedy_payloads start wps endCoords :
  Forall (fun l => waypoint l <> PNull) wps ->
  Forall (fun l => waypoint l <> PNull)
    (calculateGreedyInsertionOrder start wps endCoords).
Proof.
  intros H.
  destruct (greedy_result_cases start wps endCoords)
    as [(placed & -> & Hperm)
       |(i & endleg & placed & Hnth & _ & Hperm & ->)].
  - eapply Permutation_Forall; eauto.
  - apply Forall_app. split.
    + eapply Permutation_Forall; [exact Hperm|].
      pose proof (Permutation_Forall (remove_at_perm _ _ _ Hnth) H) as H'.
      now inversion H'.
    + constructor; [discriminate|constructor].
Qed.

Lemma greedy_single start x :
  calculateGreedyInsertionOrder start [x] None = [x].
Proof.
  destruct (greedy_closed start x []) as (placed & _ & -> & Hperm).
  now apply Permutation_length_1_inv.
Qed.


(** [haversine] does not depend on the direction, so in a closed loop around
    one placed leg a candidate costs the same before and after that leg. *)
Lemma haversine_sym p q : haversine p q = haversine q p.
Proof.
  destruct p as [lon1 lat1], q as [lon2 lat2]. unfold haversine.
  assert (H : forall x y,
             sin (toRad (x - y) / 2) ^ 2 = sin (toRad (y - x) / 2) ^ 2).
  { intros x y.
    replace (toRad (x - y) / 2) with (- (toRad (y - x) / 2))
      by (unfold toRad; lra).
    rewrite sin_neg. ring. }
  cbv zeta. rewrite (H lat2 lat1), (H lon2 lon1).
  rewrite (Rmult_comm (cos (toRad lat1))). reflexivity.
Qed.



(** The stops of the examples, as legs. *)
Definition example_stop (label : string) (c : Coords) : Leg :=
  leg_of (mkWaypoint label label None None false false) c.


(** ** Example world *)

(** A geocoder that knows the addresses "A", "B" and "E", a trip provider
    that answers every request with a trip along the requested points and
    without [waypoint_order], and a segment provider that answers with the
    two requested points. *)
Definition example_geocoder (addr : string) : option (option Coords) :=
  if String.eqb addr "A" then Some (Some (0, 1))
  else if String.eqb addr "B" then Some (Some (0, 2))
  else if String.eqb addr "E" then Some (Some (0, 3))
  else Some None.

Definition example_services : Services :=
  mkServices example_geocoder
    (fun _ points _ => Some (Some (mkTripRaw (Some points) 1000 600 None)))
    (fun _ points => Some (Some (mkRouteRaw points 500 60))).

Definition example_location : CurrentLocation :=
  mkCurrentLocation 0 0 None.

Definition stop (label : string) (isEnd : bool) : Waypoint :=
  mkWaypoint label label None None false isEnd.

(** ** Running computations *)

Lemma geocodeAddress_run sv addr :
  geocodeAddress sv addr = ([GeocodeRequest addr], Value (resolve sv addr)).
Proof. reflexivity. Qed.

Definition geocode_event (w : Waypoint) : Event :=
  GeocodeRequest (wp_address w).

Lemma geocode_stops_ok sv stops :
  (forall w, In w stops -> resolve sv (wp_address w) <> None) ->
  geocode_stops sv stops =
  (map geocode_event stops, Value (geocoded_legs sv stops)).
Proof.
  induction stops as [|w more IH]; intros H; [reflexivity|].
  cbn [geocode_stops]. rewrite geocodeAddress_run.
  assert (Hw : resolve sv (wp_address w) <> None) by (apply H; now left).
  unfold geocoded_legs. cbn [flat_map map].
  destruct (resolve sv (wp_address w)) as [c|]; [|congruence].
  cbn [bind]. rewrite IH by (intros; apply H; now right).
  cbn [bind ret]. rewrite app_nil_r. reflexivity.
Qed.

Lemma geocode_stops_fail sv pre w post :
  (forall x, In x pre -> resolve sv (wp_address x) <> None) ->
  resolve sv (wp_address w) = None ->
  geocode_stops sv (pre ++ w :: post) =
  (map geocode_event (pre ++ [w]), Throw (DestinationNotFound (wp_address w))).
Proof.
  intros Hpre Hw. induction pre as [|x pre IH].
  - cbn [app geocode_stops map]. rewrite geocodeAddress_run, Hw. reflexivity.
  - cbn [app geocode_stops map]. rewrite geocodeAddress_run.
    assert (Hx : resolve sv (wp_address x) <> None) by (apply Hpre; now left).
    destruct (resolve sv (wp_address x)) as [c|]; [|congruence].
    cbn [bind]. rewrite IH by (intros; apply Hpre; now right).
    reflexivity.
Qed.

Lemma network_requests_geocodes stops :
  network_requests (map geocode_event stops) = map geocode_event stops.
Proof.
  induction stops as [|w more IH]; [reflexivity|].
  unfold network_requests in *. simpl. now rewrite IH.
Qed.

Lemma network_requests_app l1 l2 :
  network_requests (l1 ++ l2) = network_requests l1 ++ network_requests l2.
Proof. apply filter_app. Qed.

Lemma findIndex_nth {A} (p : A -> bool) l i :
  findIndex p l = Some i -> exists x, nth_error l i = Some x.
Proof.
  intros H. destruct (findIndex_Some _ _ _ H) as (x & Hx & _). eauto.
Qed.

(** ** Geocoding *)

Lemma route_body_fails_at_intermediate sv loc mode pre w post endWaypoint :
  (forall x, In x pre -> resolve sv (wp_address x) <> None) ->
  resolve sv (wp_address w) = None ->
  route_body sv loc mode (pre ++ w :: post) endWaypoint =
  (map geocode_event (pre ++ [w]), Throw (DestinationNotFound (wp_address w))).
Proof.
  intros Hpre Hw. unfold route_body.
  rewrite (geocode_stops_fail sv pre w post Hpre Hw). reflexivity.
Qed.

Lemma route_body_fails_at_end sv loc mode stops e :
  (forall x, In x stops -> resolve sv (wp_address x) <> None) ->
  resolve sv (wp_address e) = None ->
  route_body sv loc mode stops (Some e) =
  (map geocode_event (stops ++ [e]),
   Throw (EndDestinationNotFound (wp_address e))).
Proof.
  intros Hpre Hw. unfold route_body.
  rewrite (geocode_stops_ok sv stops Hpre). cbn [bind geocode_end].
  rewrite geocodeAddress_run, Hw. cbn [bind throw].
  rewrite map_app. reflexivity.
Qed.

Lemma network_requests_failed single stops e :
  (single = [] \/ single = [ToastShown OnlyOneDestination]) ->
  network_requests
    (single ++ map geocode_event stops ++ [ToastShown (RouteCalculationFailed e)])
  = map geocode_event stops.
Proof.
  intros H. rewrite !network_requests_app, network_requests_geocodes.
  destruct H as [-> | ->]; cbn; apply app_nil_r.
Qed.

(** C6 (amended).  The available stops are geocoded one after the other,
    the intermediate stops in input order and the end-flagged stop after
    them; at the first stop in that order whose address does not resolve the
    operation fails with the error of that stop, the only network requests
    made are the geocoding requests up to and including that stop (no trip
    and no segment request), and no route is returned. *)
Theorem geocoding_aborts_at_first_unresolved sv loc mode wps pre w post :
  geocoding_order wps = pre ++ w :: post ->
  (forall x, In x pre -> resolve sv (wp_address x) <> None) ->
  resolve sv (wp_address w) = None ->
  exists log e,
    calculateMultiPointRoute sv (Some loc) true mode wps
      = (log, RouteFailed e) /\
    (e = DestinationNotFound (wp_address w) \/
     e = EndDestinationNotFound (wp_address w)) /\
    network_requests log = map geocode_event (pre ++ [w]).
Proof.
  intros Horder Hpre Hw. unfold calculateMultiPointRoute.
  unfold geocoding_order, intermediate_of, endWaypoint_of in Horder.
  destruct (filter available wps) as [|a avail] eqn:Ea.
  { simpl in Horder. destruct pre; discriminate. }
  set (single := if (length (a :: avail) =? 1)%nat
                 then [ToastShown OnlyOneDestination] else []).
  assert (Hs : single = [] \/ single = [ToastShown OnlyOneDestination])
    by (unfold single; destruct (length (a :: avail) =? 1)%nat; auto).
  destruct (findIndex wp_isEndPoint (a :: avail)) as [i|] eqn:Ei.
  - destruct (findIndex_nth _ _ _ Ei) as [e He]. rewrite He in *.
    destruct (exists_last (l := w :: post)) as (l' & z & Hl); [discriminate|].
    rewrite Hl, app_assoc in Horder.
    apply app_inj_tail in Horder. destruct Horder as [Hinter Hze]. subst z.
    destruct l' as [|x l''].
    + cbn in Hl. injection Hl as Hz Hpost. subst e post.
      rewrite app_nil_r in Hinter. rewrite Hinter.
      rewrite (route_body_fails_at_end sv loc mode pre w Hpre Hw).
      eexists _, _. split; [reflexivity|]. split; [now right|].
      now apply network_requests_failed.
    + cbn in Hl. injection Hl as Hx Hpost. subst x post. rewrite Hinter.
      rewrite (route_body_fails_at_intermediate sv loc mode pre w l'' _ Hpre Hw).
      eexists _, _. split; [reflexivity|]. split; [now left|].
      now apply network_requests_failed.
  - rewrite app_nil_r in Horder. rewrite Horder.
    rewrite (route_body_fails_at_intermediate sv loc mode pre w post _ Hpre Hw).
    eexists _, _. split; [reflexivity|]. split; [now left|].
    now apply network_requests_failed.
Qed.

(** The stops [A], [Z] (an address nothing is found for) and [B]: the run
    stops at [Z]. *)
Lemma geocoding_aborts_at_Z :
  exists log e,
    calculateMultiPointRoute example_services (Some example_location) true
      Driving [stop "A" false; stop "Z" false; stop "B" false]
      = (log, RouteFailed e) /\
    (e = DestinationNotFound "Z" \/ e = EndDestinationNotFound "Z") /\
    network_requests log = [GeocodeRequest "A"; GeocodeRequest "Z"].
Proof.
  apply (geocoding_aborts_at_first_unresolved example_services
           example_location Driving
           [stop "A" false; stop "Z" false; stop "B" false]
           [stop "A" false] (stop "Z" false) [stop "B" false]).
  - reflexivity.
  - intros x [<-|[]]. discriminate.
  - reflexivity.
Defined.

(** C6, as stated, fails: with the end stop first in the input, the
    addresses are not geocoded in input order. *)
Lemma geocoding_not_in_input_order :
  ~ exists rest,
      map wp_address (filter available [stop "E" true; stop "A" false]) =
      geocoded_addresses
        (fst (calculateMultiPointRoute example_services
                (Some example_location) true Driving
                [stop "E" true; stop "A" false])) ++ rest.
Proof.
  intros [rest H]. cbv - [Rplus Rmult IZR Rdiv] in H. discriminate.
Qed.

(** ** Stitching *)

Lemma stitch_leg_failed sv segStart leg acc :
  osrm_route sv Driving [segStart; coords leg] = None \/
  osrm_route sv Driving [segStart; coords leg] = Some None ->
  stitch_leg sv segStart leg acc =
  ([SegmentRequest Driving [segStart; coords leg]],
   Value (mkStitched
            (allCoords acc ++ [(snd (coords leg), fst (coords leg))])
            (totalDist acc + haversine segStart (coords leg))
            (totalDur acc + haversine segStart (coords leg) / 13))).
Proof.
  intros H. unfold stitch_leg, fetchOSRMRoute. cbn [map coords].
  destruct H as [-> | ->]; reflexivity.
Qed.

Lemma stitch_leg_answered sv segStart leg acc r :
  osrm_route sv Driving [segStart; coords leg] = Some (Some r) ->
  stitch_leg sv segStart leg acc =
  ([SegmentRequest Driving [segStart; coords leg]],
   Value (mkStitched
            (allCoords acc ++
             if (0 <? length (allCoords acc))%nat then later_leg_path r
             else leg_path r)
            (totalDist acc + raw_route_distance r)
            (totalDur acc + raw_route_duration r))).
Proof.
  intros H. unfold stitch_leg, fetchOSRMRoute. cbn [map coords].
  rewrite H. unfold later_leg_path, leg_path. cbn.
  destruct (length (allCoords acc));
    destruct (length (map swap_axes (raw_route_geometry r))) as [|[|?]];
    reflexivity.
Qed.

Definition is_segment_request (ev : Event) : Prop :=
  match ev with SegmentRequest _ _ => True | _ => False end.

(** The stitching loop never throws. *)
Lemma stitch_legs_total sv legs : forall prev acc,
  exists log s,
    stitch_legs sv prev legs acc = (log, Value s) /\
    Forall is_segment_request log.
Proof.
  induction legs as [|leg more IH]; intros prev acc.
  - exists [], acc. split; [reflexivity|constructor].
  - cbn [stitch_legs].
    destruct (osrm_route sv Driving [prev; coords leg]) as [[r|]|] eqn:E.
    + rewrite (stitch_leg_answered _ _ _ _ _ E). cbn [bind].
      destruct (IH (coords leg)
                  (mkStitched
                     (allCoords acc ++
                      if (0 <? length (allCoords acc))%nat
                      then later_leg_path r else leg_path r)
                     (totalDist acc + raw_route_distance r)
                     (totalDur acc + raw_route_duration r)))
        as (log & s & -> & Hlog).
      eexists _, _. split; [reflexivity|]. constructor; [exact I|exact Hlog].
    + rewrite (stitch_leg_failed _ _ _ _ (or_intror E)). cbn [bind].
      destruct (IH (coords leg)
                  (mkStitched
                     (allCoords acc ++ [(snd (coords leg), fst (coords leg))])
                     (totalDist acc + haversine prev (coords leg))
                     (totalDur acc + haversine prev (coords leg) / 13)))
        as (log & s & -> & Hlog).
      eexists _, _. split; [reflexivity|]. constructor; [exact I|exact Hlog].
    + rewrite (stitch_leg_failed _ _ _ _ (or_introl E)). cbn [bind].
      destruct (IH (coords leg)
                  (mkStitched
                     (allCoords acc ++ [(snd (coords leg), fst (coords leg))])
                     (totalDist acc + haversine prev (coords leg))
                     (totalDur acc + haversine prev (coords leg) / 13)))
        as (log & s & -> & Hlog).
      eexists _, _. split; [reflexivity|]. constructor; [exact I|exact Hlog].
Qed.

(** C7 (amended).  In the stitching loop of the fallback path, when the
    segment request of a leg fails (the request throws, or the provider has no
    route), the leg's end point is appended to the path, which so goes on in
    a straight line from its last point; the leg's haversine distance is
    added to the total distance and that distance divided by 13 to the total
    duration, and the loop goes on with the remaining legs from there and
    ends with a result. *)
Theorem failed_segment_is_estimated sv prev leg more acc :
  osrm_route sv Driving [prev; coords leg] = None \/
  osrm_route sv Driving [prev; coords leg] = Some None ->
  exists log s,
    stitch_legs sv (coords leg) more
      (mkStitched
         (allCoords acc ++ [(snd (coords leg), fst (coords leg))])
         (totalDist acc + haversine prev (coords leg))
         (totalDur acc + haversine prev (coords leg) / 13))
      = (log, Value s) /\
    stitch_legs sv prev (leg :: more) acc =
      (SegmentRequest Driving [prev; coords leg] :: log, Value s).
Proof.
  intros H.
  destruct (stitch_legs_total sv more (coords leg)
              (mkStitched
                 (allCoords acc ++ [(snd (coords leg), fst (coords leg))])
                 (totalDist acc + haversine prev (coords leg))
                 (totalDur acc + haversine prev (coords leg) / 13)))
    as (log & s & Hrun & _).
  exists log, s. split; [exact Hrun|].
  cbn [stitch_legs]. rewrite (stitch_leg_failed _ _ _ _ H). cbn [bind].
  rewrite Hrun. reflexivity.
Qed.

(** A network in which only the geocoder answers. *)
Definition geocoder_only : Services :=
  mkServices example_geocoder (fun _ _ _ => None) (fun _ _ => None).

(** The theorem at the first leg of the stops A and B, in a network whose
    segment requests all fail. *)
Lemma failed_segment_from_origin :
  exists log s,
    stitch_legs geocoder_only (0, 1) [example_stop "B" (0, 2)]
      (mkStitched ([] ++ [(1, 0)])
         (0 + haversine (0, 0) (0, 1))
         (0 + haversine (0, 0) (0, 1) / 13))
      = (log, Value s) /\
    stitch_legs geocoder_only (0, 0)
      [example_stop "A" (0, 1); example_stop "B" (0, 2)] (mkStitched [] 0 0)
      = (SegmentRequest Driving [(0, 0); (0, 1)] :: log, Value s).
Proof.
  apply (failed_segment_is_estimated geocoder_only (0, 0)
           (example_stop "A" (0, 1)) [example_stop "B" (0, 2)]
           (mkStitched [] 0 0)).
  left. reflexivity.
Defined.

(** A segment provider that answers only for legs that start on the
    equator, with a path that ends ten degrees east of the requested end. *)
Definition equator_segments : Services :=
  mkServices example_geocoder (fun _ _ _ => None)
    (fun _ points =>
       match points with
       | [p; q] =>
           if Reqb (snd p) 0
           then Some (Some (mkRouteRaw [p; (fst q + 10, snd q)] 500 60))
           else None
       | _ => None
       end).

(** C7, as stated, fails: the leg from A to B fails after an answered leg
    whose path ends away from A; the path goes on from that last point to B,
    and A, the start of the failed leg, is not on it, so the line that stands
    in for the leg does not join the leg's two points. *)
Lemma failed_segment_line_starts_at_path_end :
  exists log s,
    stitch_legs equator_segments (0, 0)
      [example_stop "A" (0, 1); example_stop "B" (0, 2)] (mkStitched [] 0 0)
      = (log, Value s) /\
    osrm_route equator_segments Driving [(0, 1); (0, 2)] = None /\
    allCoords s = [(0, 0); (1, 0 + 10); (2, 0)] /\
    ~ In (1, 0) (allCoords s).
Proof.
  assert (H1 : osrm_route equator_segments Driving
                 [(0, 0); coords (example_stop "A" (0, 1))] =
               Some (Some (mkRouteRaw [(0, 0); (0 + 10, 1)] 500 60))).
  { cbn. unfold Reqb. destruct (Req_dec_T 0 0); [reflexivity|congruence]. }
  assert (H2 : osrm_route equator_segments Driving
                 [coords (example_stop "A" (0, 1));
                  coords (example_stop "B" (0, 2))] = None).
  { cbn. unfold Reqb. destruct (Req_dec_T 1 0); [lra|reflexivity]. }
  eexists _, _. split; [|split; [exact H2|split]].
  - cbn [stitch_legs]. rewrite (stitch_leg_answered _ _ _ _ _ H1).
    cbn [bind]. rewrite (stitch_leg_failed _ _ _ _ (or_introl H2)).
    cbn [bind ret]. reflexivity.
  - reflexivity.
  - cbn. intros [H|[H|[H|[]]]]; inversion H; lra.
Qed.

(** A whole run with one stop in a network whose trip and segment requests
    fail: the path is the stop alone. *)
Lemma failed_first_segment_path :
  exists log r,
    calculateMultiPointRoute geocoder_only (Some example_location) true
      Driving [stop "B" false] = (log, RouteSet r) /\
    coordinates r = [(2, 0)] /\
    distance r = 0 + haversine (0, 0) (0, 2).
Proof.
  eexists _, _. split.
  - unfold calculateMultiPointRoute, route_body.
    cbv - [calculateGreedyInsertionOrder haversine Rplus Rdiv Rmult IZR
           stitch_legs label_from].
    rewrite greedy_single.
    cbv - [haversine Rplus Rdiv Rmult IZR]. reflexivity.
  - split; reflexivity.
Qed.

Lemma stitch_legs_answered sv legs : forall prev acc rs,
  segment_answers sv prev legs = map (fun r => Some (Some r)) rs ->
  allCoords acc <> [] ->
  exists log s,
    stitch_legs sv prev legs acc = (log, Value s) /\
    allCoords s = allCoords acc ++ flat_map later_leg_path rs.
Proof.
  induction legs as [|leg more IH]; intros prev acc rs Hans Hacc.
  - destruct rs; [|discriminate]. exists [], acc.
    split; [reflexivity|]. cbn. now rewrite app_nil_r.
  - destruct rs as [|r rs]; [discriminate|].
    cbn [segment_answers map] in Hans. injection Hans as Hr Hrest.
    cbn [stitch_legs]. rewrite (stitch_leg_answered _ _ _ _ _ Hr).
    cbn [bind].
    assert (Hpos : (0 <? length (allCoords acc))%nat = true).
    { apply Nat.ltb_lt. destruct (allCoords acc); [congruence|simpl; lia]. }
    rewrite Hpos.
    destruct (IH (coords leg)
                (mkStitched (allCoords acc ++ later_leg_path r)
                   (totalDist acc + raw_route_distance r)
                   (totalDur acc + raw_route_duration r)) rs Hrest)
      as (log & s & -> & Hs).
    { cbn [allCoords]. destruct (allCoords acc); [congruence|discriminate]. }
    eexists _, _. split; [reflexivity|].
    rewrite Hs. cbn [allCoords flat_map]. now rewrite app_assoc.
Qed.

(** C10 (amended).  When every segment request is answered and the first
    leg's path is not empty, the stitched path is the first leg's path
    followed, for every later leg, by that leg's path without its first
    point (or by the whole of it when it is a single point): the first point
    is dropped without being compared with the last point of the path so
    far. *)
Theorem stitching_drops_first_points sv prev legs r0 rs :
  segment_answers sv prev legs = map (fun r => Some (Some r)) (r0 :: rs) ->
  raw_route_geometry r0 <> [] ->
  exists log s,
    stitch_legs sv prev legs (mkStitched [] 0 0) = (log, Value s) /\
    allCoords s = leg_path r0 ++ flat_map later_leg_path rs.
Proof.
  intros Hans Hgeo. destruct legs as [|leg more]; [discriminate|].
  cbn [segment_answers map] in Hans. injection Hans as Hr Hrest.
  cbn [stitch_legs]. rewrite (stitch_leg_answered _ _ _ _ _ Hr).
  cbn [bind allCoords totalDist totalDur length Nat.ltb Nat.leb app].
  destruct (stitch_legs_answered sv more (coords leg)
              (mkStitched (leg_path r0) (0 + raw_route_distance r0)
                 (0 + raw_route_duration r0)) rs Hrest)
    as (log & s & -> & Hs).
  { cbn [allCoords]. unfold leg_path.
    destruct (raw_route_geometry r0); [congruence|discriminate]. }
  eexists _, _. split; [reflexivity|exact Hs].
Qed.

(** The theorem at the stops A and B with the example segment provider. *)
Lemma stitching_two_answered_legs :
  exists log s,
    stitch_legs example_services (0, 0)
      [example_stop "A" (0, 1); example_stop "B" (0, 2)] (mkStitched [] 0 0)
      = (log, Value s) /\
    allCoords s =
      leg_path (mkRouteRaw [(0, 0); (0, 1)] 500 60) ++
      flat_map later_leg_path [mkRouteRaw [(0, 1); (0, 2)] 500 60].
Proof.
  apply (stitching_drops_first_points example_services (0, 0)
           [example_stop "A" (0, 1); example_stop "B" (0, 2)]
           (mkRouteRaw [(0, 0); (0, 1)] 500 60)
           [mkRouteRaw [(0, 1); (0, 2)] 500 60]).
  - reflexivity.
  - discriminate.
Defined.

(** A segment provider whose paths start ten degrees east of the requested
    start. *)
Definition shifted_segments : Services :=
  mkServices example_geocoder (fun _ _ _ => None)
    (fun _ points =>
       match points with
       | [p; q] => Some (Some (mkRouteRaw [(fst p + 10, snd p); q] 500 60))
       | _ => Some None
       end).

(** C10, as stated, fails: the second leg's path starts at a point other
    than the last point of the first leg's path, and that point is dropped
    all the same. *)
Lemma stitching_loses_a_distinct_point :
  exists log s first_path second_path p,
    stitch_legs shifted_segments (0, 0)
      [example_stop "A" (0, 1); example_stop "B" (0, 2)] (mkStitched [] 0 0)
      = (log, Value s) /\
    fetchOSRMRoute shifted_segments Driving (0, 0) [example_stop "A" (0, 1)]
      = ([SegmentRequest Driving [(0, 0); (0, 1)]],
         Value (mkSegmentRoute first_path 500 60)) /\
    fetchOSRMRoute shifted_segments Driving (0, 1) [example_stop "B" (0, 2)]
      = ([SegmentRequest Driving [(0, 1); (0, 2)]],
         Value (mkSegmentRoute second_path 500 60)) /\
    hd_error second_path = Some p /\
    hd_error (rev first_path) <> Some p /\
    ~ In p (allCoords s).
Proof.
  exists [SegmentRequest Driving [(0, 0); (0, 1)];
          SegmentRequest Driving [(0, 1); (0, 2)]],
         (mkStitched [(0, 0 + 10); (1, 0); (2, 0)] (0 + 500 + 500)
            (0 + 60 + 60)),
         [(0, 0 + 10); (1, 0)], [(1, 0 + 10); (2, 0)], (1, 0 + 10).
  split; [reflexivity|]. split; [reflexivity|]. split; [reflexivity|].
  split; [reflexivity|]. split.
  - cbn. intros H. inversion H. lra.
  - cbn. intros [H|[H|[H|[]]]]; inversion H; lra.
Qed.

(** ** Duration compensation *)







(** ** The trip attempt *)

Lemma pick_order_run dests order :
  (exists r, pick_order dests order = ([], Value r) /\
             Forall (fun x => In x dests) r /\ length r = length order) \/
  (exists e, pick_order dests order = ([], Throw e)).
Proof.
  induction order as [|idx more IH]; [left; exists []; repeat constructor|].
  cbn [pick_order].
  destruct (if (0 <=? idx)%Z then nth_error dests (Z.to_nat idx) else None)
    as [dest|] eqn:E; [|right; eexists; reflexivity].
  assert (Hin : In dest dests).
  { destruct (0 <=? idx)%Z; [|discriminate]. eapply nth_error_In; eauto. }
  destruct IH as [(r & -> & Hr & Hlen)|(e & ->)].
  - left. exists (mkLeg (coords dest) (waypoint dest) :: r).
    split; [reflexivity|]. split; [|simpl; congruence].
    constructor; [destruct dest; exact Hin|exact Hr].
  - right. eexists; reflexivity.
Qed.

Lemma pick_order_seq l : forall pre,
  pick_order (pre ++ l) (map Z.of_nat (seq (length pre) (length l))) =
  ([], Value l).
Proof.
  induction l as [|x l IH]; intros pre; [reflexivity|].
  cbn [length seq map pick_order].
  assert (H0 : (0 <=? Z.of_nat (length pre))%Z = true)
    by (apply Z.leb_le; lia).
  rewrite H0, Nat2Z.id, nth_error_app2, Nat.sub_diag by lia.
  cbn [nth_error].
  replace (pre ++ x :: l) with ((pre ++ [x]) ++ l)
    by (rewrite <- app_assoc; reflexivity).
  replace (S (length pre)) with (length (pre ++ [x]))
    by (rewrite length_app; simpl; lia).
  rewrite IH. destruct x; reflexivity.
Qed.

Lemma pick_order_identity dests :
  pick_order dests (identity_order dests) = ([], Value dests).
Proof. exact (pick_order_seq dests []). Qed.

(** The points of the trip request. *)
Definition trip_points (start : Coords) (destinations : list Leg)
    (endCoords : option Coords) : list Coords :=
  (start :: map coords destinations) ++
  match endCoords with Some e => [e] | None => [] end.

Lemma fetchOSRMTripRoute_run sv mode start dests endCoords :
  (exists t,
     fetchOSRMTripRoute sv mode start dests endCoords =
       ([TripRequest mode (trip_points start dests endCoords)
           (is_some endCoords)], Value t) /\
     Forall (fun x => In x dests) (reordered t)) \/
  (exists e,
     fetchOSRMTripRoute sv mode start dests endCoords =
       ([TripRequest mode (trip_points start dests endCoords)
           (is_some endCoords)], Throw e)).
Proof.
  unfold fetchOSRMTripRoute. fold (trip_points start dests endCoords).
  cbn [emit bind].
  destruct (osrm_trip sv mode _ _) as [[t|]|];
    [|right; eexists; reflexivity|right; eexists; reflexivity].
  destruct (raw_trip_geometry t) as [g|]; [|right; eexists; reflexivity].
  destruct dests as [|d dests'].
  - left. eexists. split; [reflexivity|]. constructor.
  - match goal with
    | |- context [pick_order ?ds ?o] =>
        destruct (pick_order_run ds o) as [(r & -> & Hr & _)|(e & ->)]
    end.
    + left. eexists. split; [reflexivity|]. exact Hr.
    + right. eexists; reflexivity.
Qed.

Definition is_trip_event (ev : Event) : Prop :=
  match ev with
  | TripRequest _ _ _ | ToastShown FastRouteCalculated => True
  | _ => False
  end.

(** The trip attempt never throws, and when it does not ask for the greedy
    order it holds a trip whose order is made of the requested legs. *)
Lemma attempt_trip_run sv start inter endCoords :
  exists log tripResp useGreedyInsertion,
    attempt_trip sv start inter endCoords =
      (log, Value (tripResp, useGreedyInsertion)) /\
    Forall is_trip_event log /\
    (useGreedyInsertion = false ->
     exists t, tripResp = Some t /\
               Forall (fun x => In x inter) (reordered t)).
Proof.
  unfold attempt_trip.
  destruct (fetchOSRMTripRoute_run sv Driving start inter endCoords)
    as [(t & -> & Hr)|(e & ->)].
  - cbn [bind try_catch].
    destruct ((1 <? length inter)%nat && order_unusable t (length inter)).
    + eexists _, _, _. split; [reflexivity|].
      split; [repeat constructor|discriminate].
    + eexists _, _, _. split; [reflexivity|].
      split; [repeat constructor|]. intros _. eauto.
  - eexists _, _, _. split; [reflexivity|].
    split; [repeat constructor|discriminate].
Qed.


(** ** Labelling *)

Lemma label_field_run (esUltimo : option Waypoint) (test : Waypoint -> bool)
    (own f : Waypoint -> option string) (p : Payload) :
  p <> PNull ->
  exists v,
    match esUltimo with
    | Some e => if test e then ret (own e) else payload_field f p
    | None => payload_field f p
    end = ([], Value v) /\
    (forall e, esUltimo = Some e -> test e = true -> v = own e).
Proof.
  intros Hp.
  assert (Hf : exists v, payload_field f p = ([], Value v))
    by (destruct p; [congruence|eexists; reflexivity|eexists; reflexivity]).
  destruct Hf as (v & Hf).
  destruct esUltimo as [e|].
  - destruct (test e) eqn:Et.
    + exists (own e). split; [reflexivity|].
      intros e' He' _. now inversion He'.
    + exists v. split; [exact Hf|]. intros e' He'. inversion He'; subst.
      congruence.
  - exists v. split; [exact Hf|]. discriminate.
Qed.

Lemma available_nonblank e :
  available e = true -> nonblank (Some (wp_address e)) = true.
Proof. unfold available. rewrite andb_true_iff. intros [_ H]. exact H. Qed.

Lemma label_waypoint_run endWaypoint len idx leg :
  waypoint leg <> PNull ->
  exists x,
    label_waypoint endWaypoint len idx leg = ([], Value x) /\
    position x = coords leg /\
    displayNumber x = (idx + 1)%nat /\
    (forall e, endWaypoint = Some e -> available e = true ->
               idx = (len - 1)%nat -> address x = Some (wp_address e)).
Proof.
  intros Hp. unfold label_waypoint.
  set (esUltimo := if (idx =? len - 1)%nat then endWaypoint else None).
  destruct (label_field_run esUltimo
              (fun e => nonblank (Some (wp_address e)))
              (fun e => Some (wp_address e))
              (fun s => Some (wp_address s)) (waypoint leg) Hp)
    as (va & Ha & Hva).
  destruct (label_field_run esUltimo (fun e => nonblank (wp_name e))
              wp_name wp_name (waypoint leg) Hp) as (vn & Hn & _).
  destruct (label_field_run esUltimo (fun e => nonempty (wp_id e))
              (fun e => Some (wp_id e))
              (fun s => Some (wp_id s)) (waypoint leg) Hp) as (vi & Hi & _).
  cbn beta in Ha, Hn, Hi. rewrite Ha. cbn [bind]. rewrite Hn. cbn [bind].
  rewrite Hi. cbn [bind ret app].
  eexists. split; [reflexivity|]. cbn [longitude latitude displayNumber address].
  split; [destruct (coords leg); reflexivity|]. split; [reflexivity|].
  intros e He Hav Hidx. apply (Hva e).
  - unfold esUltimo. rewrite Hidx, Nat.eqb_refl. exact He.
  - now apply available_nonblank.
Qed.

Lemma label_from_run endWaypoint legs : forall len idx,
  Forall (fun l => waypoint l <> PNull) legs ->
  exists xs,
    label_from endWaypoint len idx legs = ([], Value xs) /\
    map position xs = map coords legs /\
    map displayNumber xs = seq (idx + 1) (length legs) /\
    (forall e, endWaypoint = Some e -> available e = true ->
               legs <> [] -> len = (idx + length legs)%nat ->
               last (map address xs) None = Some (wp_address e)).
Proof.
  induction legs as [|leg more IH]; intros len idx Hnn.
  - exists []. repeat split; auto. intros; congruence.
  - inversion Hnn as [|? ? Hleg Hmore]; subst.
    destruct (label_waypoint_run endWaypoint len idx leg Hleg)
      as (x & Hx & Hc & Hd & Ha).
    destruct (IH len (S idx) Hmore) as (xs & Hxs & Hcs & Hds & Has).
    exists (x :: xs). cbn [label_from]. rewrite Hx. cbn [bind].
    rewrite Hxs. cbn [bind ret app]. split; [reflexivity|].
    cbn [map length seq]. rewrite Hc, Hcs, Hd, Hds.
    replace (S idx + 1)%nat with (S (idx + 1)) by lia.
    repeat split; auto.
    intros e He Hav _ Hlen. destruct more as [|m more'].
    + destruct xs; [|discriminate]. cbn [last map].
      apply (Ha e He Hav). simpl in Hlen. lia.
    + assert (Hxne : xs <> []).
      { intros ->. cbn in Hcs. discriminate. }
      destruct xs as [|y ys]; [congruence|].
      change (last (map address (x :: y :: ys)) None)
        with (last (map address (y :: ys)) None).
      apply (Has e He Hav); [discriminate|]. simpl in *. lia.
Qed.

(** ** A run in which every address resolves *)

Definition has_payload (l : Leg) : Prop := waypoint l <> PNull.

Lemma geocoded_legs_payloads sv stops :
  Forall has_payload (geocoded_legs sv stops).
Proof.
  unfold geocoded_legs. induction stops as [|w more IH]; [constructor|].
  cbn [flat_map]. destruct (resolve sv (wp_address w)); [|exact IH].
  constructor; [discriminate|exact IH].
Qed.

Lemma geocoded_legs_length sv stops :
  (forall w, In w stops -> resolve sv (wp_address w) <> None) ->
  length (geocoded_legs sv stops) = length stops.
Proof.
  unfold geocoded_legs. induction stops as [|w more IH]; intros H;
    [reflexivity|].
  cbn [flat_map]. assert (Hw := H w (or_introl eq_refl)).
  destruct (resolve sv (wp_address w)); [|congruence].
  cbn. rewrite IH; [reflexivity|]. intros; apply H; now right.
Qed.

Lemma geocode_end_ok sv endWaypoint :
  (forall e, endWaypoint = Some e -> resolve sv (wp_address e) <> None) ->
  geocode_end sv endWaypoint =
  (map geocode_event (end_list endWaypoint),
   Value (geocoded_end sv endWaypoint)).
Proof.
  intros H. destruct endWaypoint as [e|]; [|reflexivity].
  cbn [geocode_end geocoded_end]. rewrite geocodeAddress_run.
  assert (He := H e eq_refl).
  destruct (resolve sv (wp_address e)); [reflexivity|congruence].
Qed.

Lemma geocoded_end_payload sv endWaypoint :
  Forall has_payload (end_list (geocoded_end sv endWaypoint)).
Proof.
  destruct endWaypoint as [e|]; [|constructor]. cbn [geocoded_end].
  destruct (resolve sv (wp_address e)); repeat constructor. discriminate.
Qed.

Lemma order_and_stitch_run sv start inter gend tripResp useGreedy :
  (useGreedy = false ->
   exists t, tripResp = Some t /\
             Forall (fun x => In x inter) (reordered t)) ->
  Forall has_payload inter ->
  Forall has_payload (end_list gend) ->
  exists log order s,
    order_and_stitch sv start inter gend tripResp useGreedy
      = (log, Value (order, s)) /\
    Forall has_payload order /\
    Forall is_segment_request log /\
    (useGreedy = true ->
     order = calculateGreedyInsertionOrder start (inter ++ end_list gend)
               (option_map coords gend)) /\
    (useGreedy = false ->
     exists t, tripResp = Some t /\ order = reordered t /\ log = []).
Proof.
  intros Htrip Hinter Hend. unfold order_and_stitch.
  fold (end_list gend). destruct useGreedy.
  - match goal with
    | |- context [stitch_legs sv start ?o ?a] =>
        destruct (stitch_legs_total sv o start a) as (log & s & Hrun & Hlog)
    end.
    rewrite Hrun. cbn [bind ret]. rewrite app_nil_r.
    eexists _, _, _. split; [reflexivity|].
    split; [|split; [exact Hlog|split; [reflexivity|discriminate]]].
    apply greedy_payloads. apply Forall_app. now split.
  - destruct (Htrip eq_refl) as (t & -> & Ht).
    eexists _, _, _. split; [reflexivity|].
    split; [|split; [constructor|split; [discriminate|eauto]]].
    rewrite Forall_forall in *. intros x Hx. apply Hinter, Ht, Hx.
Qed.

Lemma assemble_run loc mode endWaypoint useGreedy order s :
  Forall has_payload order ->
  exists labelled,
    label_from endWaypoint (length order) 0 order = ([], Value labelled) /\
    assemble loc mode endWaypoint useGreedy order s =
      ([ToastShown (RouteSummary (strategy_of useGreedy))],
       Value (mkRouteData (totalDist s) (compensate mode (totalDur s))
                (allCoords s) (start_waypoint loc :: labelled))).
Proof.
  intros H.
  destruct (label_from_run endWaypoint order (length order) 0 H)
    as (xs & Hxs & _).
  exists xs. split; [exact Hxs|]. unfold assemble. rewrite Hxs. reflexivity.
Qed.

(** The shape of a run in which every address resolves: it ends with a
    route. *)
Lemma route_body_run sv loc mode stops endWaypoint :
  (forall w, In w stops -> resolve sv (wp_address w) <> None) ->
  (forall e, endWaypoint = Some e -> resolve sv (wp_address e) <> None) ->
  stops ++ end_list endWaypoint <> [] ->
  exists alog tripResp useGreedy slog order s labelled,
    attempt_trip sv (cl_longitude loc, cl_latitude loc)
      (geocoded_legs sv stops)
      (option_map coords (geocoded_end sv endWaypoint))
      = (alog, Value (tripResp, useGreedy)) /\
    order_and_stitch sv (cl_longitude loc, cl_latitude loc)
      (geocoded_legs sv stops) (geocoded_end sv endWaypoint) tripResp
      useGreedy = (slog, Value (order, s)) /\
    Forall has_payload order /\
    label_from endWaypoint (length order) 0 order = ([], Value labelled) /\
    route_body sv loc mode stops endWaypoint =
      (map geocode_event (stops ++ end_list endWaypoint) ++ alog ++ slog
         ++ [ToastShown (RouteSummary (strategy_of useGreedy))],
       Value (mkRouteData (totalDist s) (compensate mode (totalDur s))
                (allCoords s) (start_waypoint loc :: labelled))).
Proof.
  intros Hstops Hend Hne.
  destruct (attempt_trip_run sv (cl_longitude loc, cl_latitude loc)
              (geocoded_legs sv stops)
              (option_map coords (geocoded_end sv endWaypoint)))
    as (alog & tripResp & useGreedy & Hatt & _ & Htrip).
  destruct (order_and_stitch_run sv (cl_longitude loc, cl_latitude loc)
              (geocoded_legs sv stops) (geocoded_end sv endWaypoint)
              tripResp useGreedy Htrip (geocoded_legs_payloads sv stops)
              (geocoded_end_payload sv endWaypoint))
    as (slog & order & s & Hord & Hpay & _).
  destruct (assemble_run loc mode endWaypoint useGreedy order s Hpay)
    as (labelled & Hlab & Hasm).
  exists alog, tripResp, useGreedy, slog, order, s, labelled.
  repeat split; auto.
  unfold route_body. rewrite (geocode_stops_ok sv stops Hstops).
  cbn [bind]. rewrite (geocode_end_ok sv endWaypoint Hend). cbn [bind].
  assert (Hcheck :
    match geocoded_legs sv stops, geocoded_end sv endWaypoint with
    | [], None => throw NoValidDestinations
    | _, _ => ret tt
    end = ([], Value tt)).
  { destruct (geocoded_legs sv stops) eqn:El; [|reflexivity].
    destruct (geocoded_end sv endWaypoint) eqn:Ee; [reflexivity|].
    exfalso. apply Hne.
    pose proof (geocoded_legs_length sv stops Hstops) as Hl.
    rewrite El in Hl. destruct stops; [|discriminate].
    destruct endWaypoint as [e|]; [|reflexivity].
    cbn [geocoded_end] in Ee. specialize (Hend e eq_refl).
    destruct (resolve sv (wp_address e)); [discriminate|congruence]. }
  rewrite Hcheck. cbn [bind]. rewrite Hatt. cbn [bind fst snd].
  rewrite Hord. cbn [bind fst snd]. rewrite Hasm.
  rewrite map_app, <- !app_assoc. reflexivity.
Qed.

Lemma remove_at_In {A} (x : A) i l : In x (remove_at i l) -> In x l.
Proof.
  revert i; induction l as [|h t IH]; intros [|j] H; simpl in *; auto.
  destruct H as [H|H]; eauto.
Qed.

Lemma partition_resolves sv avail :
  (forall w, In w avail -> resolve sv (wp_address w) <> None) ->
  (forall w, In w (intermediate_of avail) ->
             resolve sv (wp_address w) <> None) /\
  (forall e, endWaypoint_of avail = Some e ->
             resolve sv (wp_address e) <> None).
Proof.
  intros H. unfold intermediate_of, endWaypoint_of.
  destruct (findIndex wp_isEndPoint avail) as [i|]; split.
  - intros w Hw. apply H. eapply remove_at_In; eauto.
  - intros e He. apply H. eapply nth_error_In; eauto.
  - exact H.
  - discriminate.
Qed.

Lemma partition_nonempty avail :
  avail <> [] -> intermediate_of avail ++ end_list (endWaypoint_of avail) <> [].
Proof.
  intros Hne. unfold intermediate_of, endWaypoint_of.
  destruct (findIndex wp_isEndPoint avail) as [i|] eqn:Ei.
  - destruct (findIndex_nth _ _ _ Ei) as [e ->]. cbn.
    intros H. apply app_eq_nil in H. destruct H; discriminate.
  - cbn. rewrite app_nil_r. exact Hne.
Qed.

Lemma partition_length avail :
  (length (intermediate_of avail) + length (end_list (endWaypoint_of avail))
   = length avail)%nat.
Proof.
  unfold intermediate_of, endWaypoint_of.
  destruct (findIndex wp_isEndPoint avail) as [i|] eqn:Ei; [|cbn; lia].
  destruct (findIndex_nth _ _ _ Ei) as [e He]. rewrite He. cbn.
  assert (i < length avail)%nat by (apply nth_error_Some; congruence).
  rewrite remove_at_length by assumption. lia.
Qed.





(** ** Fallback on an unusable ordering *)

Lemma geocoded_total sv avail :
  (forall w, In w avail -> resolve sv (wp_address w) <> None) ->
  (length (geocoded_legs sv (intermediate_of avail)
             ++ end_list (geocoded_end sv (endWaypoint_of avail)))
   = length avail)%nat.
Proof.
  intros Hres. destruct (partition_resolves sv _ Hres) as [Hinter Hend].
  rewrite length_app, geocoded_legs_length by assumption.
  rewrite <- (partition_length avail). f_equal.
  destruct (endWaypoint_of avail) as [e|]; [|reflexivity].
  cbn [geocoded_end]. specialize (Hend e eq_refl).
  destruct (resolve sv (wp_address e)); [reflexivity|congruence].
Qed.




(** ** The end stop on the provider path *)

Lemma greedy_one_before_end start a e :
  coords a <> coords e ->
  calculateGreedyInsertionOrder start [a; e] (Some (coords e)) =
  [a; mkLeg (coords e) (PLeg (coords e) (waypoint e))].
Proof.
  intros Hne.
  destruct (greedy_with_end start [a; e] (coords e) e)
    as (i & endleg & placed & Hi & Hnth & _ & _ & Hres & Hperm);
    [right; now left|reflexivity|].
  assert (Ha : coords_match (coords e) a = false).
  { destruct (coords_match (coords e) a) eqn:E; [|reflexivity].
    apply coords_match_true in E. congruence. }
  assert (He : coords_match (coords e) e = true)
    by now apply coords_match_true.
  cbn [findIndex] in Hi. rewrite Ha, He in Hi. cbn in Hi.
  injection Hi as <-. cbn in Hnth. injection Hnth as <-.
  cbn [remove_at] in Hperm. apply Permutation_length_1_inv in Hperm.
  subst placed. exact Hres.
Qed.

(** C1.  The code at the failing inputs.  When the provider's trip is
    accepted, [reordered] holds the intermediate legs only.  With the
    end-flagged stop E as the only stop the route has no waypoint but the
    start; with the stops A and E the last waypoint carries the id and the
    address of E at the position of A, E's own position (0, 3) is on no
    waypoint, and A is not listed.  On the fallback path (same stops, trip
    request failing) the waypoints are the start, A and E, each at its own
    position. *)
Theorem end_stop_missing_on_provider_path :
  (exists log r,
     calculateMultiPointRoute example_services (Some example_location) true
       Driving [stop "E" true] = (log, RouteSet r) /\
     In (ToastShown (RouteSummary ProviderTrip)) log /\
     waypoints r = [start_waypoint example_location]) /\
  (exists log r,
     calculateMultiPointRoute example_services (Some example_location) true
       Driving [stop "A" false; stop "E" true] = (log, RouteSet r) /\
     In (ToastShown (RouteSummary ProviderTrip)) log /\
     resolve example_services "A" = Some (0, 1) /\
     resolve example_services "E" = Some (0, 3) /\
     map id (waypoints r) = [Some "start"; Some "E"]%string /\
     map position (waypoints r) = [(0, 0); (0, 1)]) /\
  (exists log r,
     calculateMultiPointRoute geocoder_only (Some example_location) true
       Driving [stop "A" false; stop "E" true] = (log, RouteSet r) /\
     In (ToastShown (RouteSummary SmartInsertion)) log /\
     map id (waypoints r) = [Some "start"; Some "A"; Some "E"]%string /\
     map position (waypoints r) = [(0, 0); (0, 1); (0, 3)]).
Proof.
  split; [|split].
  - eexists _, _. split; [cbv - [Rplus Rmult IZR Rdiv]; reflexivity|].
    split; [|reflexivity]. cbn. auto.
  - eexists _, _. split; [cbv - [Rplus Rmult IZR Rdiv]; reflexivity|].
    split; [cbn; auto|]. repeat split.
  - eexists _, _. split; [|split; [|split]].
    + assert (G := greedy_one_before_end (0, 0)
                     (leg_of (stop "A" false) (0, 1))
                     (leg_of (stop "E" true) (0, 3))).
      assert (Hne : coords (leg_of (stop "A" false) (0, 1))
                    <> coords (leg_of (stop "E" true) (0, 3)))
        by (cbn; intros H; inversion H; lra).
      specialize (G Hne).
      cbv - [calculateGreedyInsertionOrder Rplus Rdiv Rmult IZR] in G.
      unfold calculateMultiPointRoute, route_body.
      cbv - [calculateGreedyInsertionOrder haversine Rplus Rdiv Rmult IZR
             stitch_legs label_from].
      rewrite G.
      cbv - [haversine Rplus Rdiv Rmult IZR]. reflexivity.
    + cbn. auto 10.
    + reflexivity.
    + reflexivity.
Qed.

Lemma label_waypoint_number endWaypoint len idx leg l x :
  label_waypoint endWaypoint len idx leg = (l, Value x) ->
  displayNumber x = (idx + 1)%nat.
Proof.
  unfold label_waypoint.
  repeat match goal with
         | |- context [bind ?m _] =>
             destruct m as [? [?|?]]; cbn [bind]; [|discriminate]
         end.
  cbn [ret]. intros H. injection H as _ <-. reflexivity.
Qed.

Lemma label_from_numbers endWaypoint len legs : forall idx l xs,
  label_from endWaypoint len idx legs = (l, Value xs) ->
  map displayNumber xs = seq (idx + 1) (length xs).
Proof.
  induction legs as [|leg more IH]; intros idx l xs H.
  - injection H as _ <-. reflexivity.
  - cbn [label_from] in H.
    destruct (label_waypoint endWaypoint len idx leg) as [l1 [x|e]] eqn:Ex;
      cbn [bind] in H; [|discriminate].
    destruct (label_from endWaypoint len (S idx) more) as [l2 [ys|e]] eqn:Ey;
      cbn [bind ret] in H; [|discriminate].
    injection H as _ <-. cbn [map length seq].
    rewrite (label_waypoint_number _ _ _ _ _ _ Ex), (IH _ _ _ Ey).
    replace (S idx + 1)%nat with (S (idx + 1)) by lia. reflexivity.
Qed.

Lemma route_body_numbers sv loc mode stops endWaypoint log r :
  route_body sv loc mode stops endWaypoint = (log, Value r) ->
  map displayNumber (waypoints r) = seq 0 (length (waypoints r)).
Proof.
  unfold route_body, assemble.
  repeat match goal with
         | |- context [bind ?m _] =>
             destruct m as [? [?|?]] eqn:?; cbn [bind]; [|discriminate]
         end.
  cbn [ret]. intros H. injection H as _ <-.
  cbn [waypoints map length seq start_waypoint displayNumber].
  f_equal.
  match goal with
  | E : label_from _ _ _ _ = _ |- _ => apply (label_from_numbers _ _ _ _ _ _ E)
  end.
Qed.

(** C2.  The waypoints of every route are numbered 0, 1, 2, ... without
    gap or repeat.  The code at the failing input: with the stops A and E
    (end-flagged), both unvisited and with an address, and the provider's
    trip accepted, they are numbered 0, 1 and not 0, 1, 2. *)
Theorem provider_path_numbers_one_stop_short :
  (forall sv currentLocation leaflet mode wps log r,
     calculateMultiPointRoute sv currentLocation leaflet mode wps
       = (log, RouteSet r) ->
     map displayNumber (waypoints r) = seq 0 (length (waypoints r))) /\
  (exists log r,
     calculateMultiPointRoute example_services (Some example_location) true
       Driving [stop "A" false; stop "E" true] = (log, RouteSet r) /\
     length (filter available [stop "A" false; stop "E" true]) = 2%nat /\
     map displayNumber (waypoints r) = [0; 1]%nat).
Proof.
  split.
  - intros sv [loc|] [|] mode wps log r; try discriminate.
    unfold calculateMultiPointRoute.
    destruct (filter available wps) as [|a avail]; [discriminate|].
    destruct (route_body sv loc mode _ _) as [l [x|e]] eqn:E;
      [|discriminate].
    intros H. injection H as _ <-. eapply route_body_numbers; eauto.
  - eexists _, _. split; [cbv - [Rplus Rmult IZR Rdiv]; reflexivity|].
    split; reflexivity.
Qed.

(** * Further properties *)

(** ** [haversine] *)


(** X1.  The distance does not depend on the direction:
    [haversine(p, q) = haversine(q, p)]. *)
Theorem haversine_symmetric p q : haversine p q = haversine q p.
Proof. apply haversine_sym. Qed.


(** X3.  Between two points of one meridian whose latitudes differ by less
    than 180 degrees the distance is the arc length: the radius times the
    latitude difference in radians. *)
Theorem haversine_meridian_arc lon lat1 lat2 :
  Rabs (lat2 - lat1) < 180 ->
  haversine (lon, lat1) (lon, lat2) =
  6371000 * (Rabs (lat2 - lat1) * (PI / 180)).
Proof. apply haversine_meridian. Qed.

(** The theorem from latitude 10 to latitude 55 on the meridian of
    longitude 20. *)
Lemma haversine_meridian_arc_10_55 :
  haversine (20, 10) (20, 55) = 6371000 * (Rabs (55 - 10) * (PI / 180)).
Proof.
  apply haversine_meridian_arc.
  rewrite Rabs_right; lra.
Defined.

(** ** The two heuristic orders *)




(** ** The trip client *)

Lemma nth_error_in_range {A} (l : list A) idx :
  in_range (length l) idx ->
  exists x, nth_error l (Z.to_nat idx) = Some x /\ (0 <=? idx)%Z = true.
Proof.
  intros [H0 H1].
  destruct (nth_error l (Z.to_nat idx)) as [x|] eqn:E.
  - exists x. split; [reflexivity|]. now apply Z.leb_le.
  - apply nth_error_None in E. lia.
Qed.

Lemma pick_order_in_range dests order :
  Forall (in_range (length dests)) order ->
  pick_order dests order = ([], Value (picked_legs dests order)).
Proof.
  induction order as [|idx more IH]; intros H; [reflexivity|].
  inversion H as [|? ? Hidx Hmore]; subst.
  destruct (nth_error_in_range dests idx Hidx) as (x & Hx & H0).
  cbn [pick_order]. rewrite H0, Hx, (IH Hmore). cbn [bind ret app].
  unfold picked_legs at 2. cbn [flat_map]. rewrite Hx.
  destruct x; reflexivity.
Qed.

Lemma pick_order_first_bad dests pre idx post :
  Forall (in_range (length dests)) pre ->
  ~ in_range (length dests) idx ->
  pick_order dests (pre ++ idx :: post) =
  ([], Throw (OrderIndexOutOfRange idx)).
Proof.
  intros Hpre Hbad. induction pre as [|i pre IH].
  - cbn [app pick_order].
    destruct (0 <=? idx)%Z eqn:E0; [|reflexivity].
    destruct (nth_error dests (Z.to_nat idx)) eqn:E; [|reflexivity].
    exfalso. apply Hbad. split; [now apply Z.leb_le|].
    assert (Z.to_nat idx < length dests)%nat
      by (apply nth_error_Some; congruence).
    apply Z.leb_le in E0. lia.
  - inversion Hpre as [|? ? Hi Hmore]; subst.
    destruct (nth_error_in_range dests i Hi) as (x & Hx & H0).
    cbn [app pick_order]. rewrite H0, Hx, (IH Hmore). reflexivity.
Qed.

Lemma picked_legs_seq l : forall pre,
  picked_legs (pre ++ l) (map Z.of_nat (seq (length pre) (length l))) = l.
Proof.
  induction l as [|x l IH]; intros pre; [reflexivity|].
  cbn [length seq map]. unfold picked_legs in *. cbn [flat_map].
  rewrite Nat2Z.id, nth_error_app2, Nat.sub_diag by lia. cbn [nth_error].
  replace (pre ++ x :: l) with ((pre ++ [x]) ++ l)
    by (rewrite <- app_assoc; reflexivity).
  replace (S (length pre)) with (length (pre ++ [x]))
    by (rewrite length_app; simpl; lia).
  rewrite IH. reflexivity.
Qed.

Lemma picked_legs_perm dests o1 o2 :
  Permutation o1 o2 ->
  Permutation (picked_legs dests o1) (picked_legs dests o2).
Proof.
  intros H. unfold picked_legs. induction H; cbn [flat_map].
  - constructor.
  - now apply Permutation_app_head.
  - rewrite !app_assoc. apply Permutation_app_tail, Permutation_app_comm.
  - etransitivity; eauto.
Qed.

Lemma order_is_rearranged_range n (o : list Z) :
  NoDup o -> length o = n -> Forall (in_range n) o ->
  Permutation o (map Z.of_nat (seq 0 n)).
Proof.
  intros Hnd Hlen Hin. apply NoDup_Permutation_bis; [exact Hnd| |].
  - rewrite length_map, length_seq. lia.
  - intros idx Hidx. rewrite Forall_forall in Hin.
    destruct (Hin idx Hidx) as [H0 H1].
    apply in_map_iff. exists (Z.to_nat idx). split; [lia|].
    apply in_seq. lia.
Qed.

Lemma fetchOSRMTripRoute_found sv mode start dests endCoords t g order :
  osrm_trip sv mode (trip_points start dests endCoords) (is_some endCoords)
    = Some (Some t) ->
  raw_trip_geometry t = Some g ->
  raw_waypoint_order t = Some order ->
  length order = length dests ->
  fetchOSRMTripRoute sv mode start dests endCoords =
  (emit (TripRequest mode (trip_points start dests endCoords)
           (is_some endCoords)) ;;;
   reordered <- pick_order dests order ;;
   ret (mkTripRoute (map swap_axes g) (raw_trip_distance t)
          (raw_trip_duration t) (Some order) reordered)).
Proof.
  intros Htrip Hg Ho Hlen. unfold fetchOSRMTripRoute.
  fold (trip_points start dests endCoords). rewrite Htrip, Hg, Ho.
  destruct dests as [|d dests'].
  - destruct order; [|discriminate]. reflexivity.
  - apply Nat.eqb_eq in Hlen. rewrite Hlen. reflexivity.
Qed.

(** X6.  When the provider's trip has a geometry and an ordering array of
    the right length whose entries are all indexes of the requested legs, the
    client returns the legs at those indexes, in the array's order, with the
    geometry turned to [[lat, lon]] and the provider's distance and duration;
    if no index occurs twice this is a rearrangement of the requested legs
    (a repeated index is not refused: its leg is returned twice). *)
Theorem trip_order_is_applied sv mode start dests endCoords t g order :
  osrm_trip sv mode (trip_points start dests endCoords) (is_some endCoords)
    = Some (Some t) ->
  raw_trip_geometry t = Some g ->
  raw_waypoint_order t = Some order ->
  length order = length dests ->
  Forall (in_range (length dests)) order ->
  fetchOSRMTripRoute sv mode start dests endCoords =
    ([TripRequest mode (trip_points start dests endCoords)
        (is_some endCoords)],
     Value (mkTripRoute (map swap_axes g) (raw_trip_distance t)
              (raw_trip_duration t) (Some order)
              (picked_legs dests order))) /\
  length (picked_legs dests order) = length dests /\
  (NoDup order -> Permutation dests (picked_legs dests order)).
Proof.
  intros Htrip Hg Ho Hlen Hin.
  rewrite (fetchOSRMTripRoute_found _ _ _ _ _ _ _ _ Htrip Hg Ho Hlen).
  pose proof (pick_order_in_range dests order Hin) as Hpick.
  rewrite Hpick. split; [reflexivity|]. split.
  - destruct (pick_order_run dests order) as [(r & Hr & _ & Hl)|(e & He)].
    + rewrite Hr in Hpick. injection Hpick as <-. congruence.
    + rewrite He in Hpick. discriminate.
  - intros Hnd.
    pose proof (picked_legs_seq dests []) as Hid. cbn [app length] in Hid.
    rewrite <- Hid at 1. apply Permutation_sym, picked_legs_perm.
    exact (order_is_rearranged_range _ _ Hnd Hlen Hin).
Qed.

(** The theorem for the legs A and B and the ordering [1, 0]. *)
Lemma trip_order_is_applied_B_A :
  fetchOSRMTripRoute
    (mkServices example_geocoder
       (fun _ points _ =>
          Some (Some (mkTripRaw (Some points) 1000 600 (Some [1; 0]%Z))))
       (fun _ _ => None))
    Driving (0, 0) [example_stop "A" (0, 1); example_stop "B" (0, 2)] None =
    ([TripRequest Driving
        (trip_points (0, 0)
           [example_stop "A" (0, 1); example_stop "B" (0, 2)] None)
        (is_some (@None Coords))],
     Value (mkTripRoute (map swap_axes [(0, 0); (0, 1); (0, 2)])
              1000 600 (Some [1; 0]%Z)
              (picked_legs [example_stop "A" (0, 1); example_stop "B" (0, 2)]
                 [1; 0]%Z))) /\
  length (picked_legs [example_stop "A" (0, 1); example_stop "B" (0, 2)]
            [1; 0]%Z)
    = length [example_stop "A" (0, 1); example_stop "B" (0, 2)] /\
  (NoDup [1; 0]%Z ->
   Permutation [example_stop "A" (0, 1); example_stop "B" (0, 2)]
     (picked_legs [example_stop "A" (0, 1); example_stop "B" (0, 2)]
        [1; 0]%Z)).
Proof.
  apply (trip_order_is_applied
           (mkServices example_geocoder
              (fun _ points _ =>
                 Some (Some (mkTripRaw (Some points) 1000 600
                               (Some [1; 0]%Z))))
              (fun _ _ => None))
           Driving (0, 0) [example_stop "A" (0, 1); example_stop "B" (0, 2)]
           None
           (mkTripRaw (Some [(0, 0); (0, 1); (0, 2)]) 1000 600
              (Some [1; 0]%Z))
           [(0, 0); (0, 1); (0, 2)] [1; 0]%Z).
  - reflexivity.
  - reflexivity.
  - reflexivity.
  - reflexivity.
  - repeat constructor; cbn; lia.
Defined.

(** X7.  When the ordering array has the right length and holds an entry
    that is no index of the requested legs, the client throws for the first
    such entry, after the request was made; no leg is returned. *)
Theorem trip_order_out_of_range sv mode start dests endCoords t g pre idx post :
  osrm_trip sv mode (trip_points start dests endCoords) (is_some endCoords)
    = Some (Some t) ->
  raw_trip_geometry t = Some g ->
  raw_waypoint_order t = Some (pre ++ idx :: post) ->
  length (pre ++ idx :: post) = length dests ->
  Forall (in_range (length dests)) pre ->
  ~ in_range (length dests) idx ->
  fetchOSRMTripRoute sv mode start dests endCoords =
    ([TripRequest mode (trip_points start dests endCoords)
        (is_some endCoords)],
     Throw (OrderIndexOutOfRange idx)).
Proof.
  intros Htrip Hg Ho Hlen Hpre Hbad.
  rewrite (fetchOSRMTripRoute_found _ _ _ _ _ _ _ _ Htrip Hg Ho Hlen).
  rewrite (pick_order_first_bad dests pre idx post Hpre Hbad). reflexivity.
Qed.

(** The theorem for the legs A and B and the ordering [0, 2]. *)
Lemma trip_order_out_of_range_0_2 :
  fetchOSRMTripRoute
    (mkServices example_geocoder
       (fun _ points _ =>
          Some (Some (mkTripRaw (Some points) 1000 600 (Some [0; 2]%Z))))
       (fun _ _ => None))
    Driving (0, 0) [example_stop "A" (0, 1); example_stop "B" (0, 2)] None =
    ([TripRequest Driving
        (trip_points (0, 0)
           [example_stop "A" (0, 1); example_stop "B" (0, 2)] None)
        (is_some (@None Coords))],
     Throw (OrderIndexOutOfRange 2)).
Proof.
  apply (trip_order_out_of_range
           (mkServices example_geocoder
              (fun _ points _ =>
                 Some (Some (mkTripRaw (Some points) 1000 600
                               (Some [0; 2]%Z))))
              (fun _ _ => None))
           Driving (0, 0) [example_stop "A" (0, 1); example_stop "B" (0, 2)]
           None
           (mkTripRaw (Some [(0, 0); (0, 1); (0, 2)]) 1000 600
              (Some [0; 2]%Z))
           [(0, 0); (0, 1); (0, 2)] [0%Z] 2%Z []).
  - reflexivity.
  - reflexivity.
  - reflexivity.
  - reflexivity.
  - repeat constructor; cbn; lia.
  - unfold in_range. cbn. lia.
Defined.

(** ** The requests of a run *)

(** The names of a run of [calculateMultiPointRoute]: [startCoords], the
    geocoded [intermediate], [geocodedEnd], the request for the trip, and the
    order of the fallback. *)
Definition start_of (loc : CurrentLocation) : Coords :=
  (cl_longitude loc, cl_latitude loc).

Definition intermediate_legs (sv : Services) (wps : list Waypoint) : list Leg :=
  geocoded_legs sv (intermediate_of (filter available wps)).

Definition end_leg (sv : Services) (wps : list Waypoint) : option Leg :=
  geocoded_end sv (endWaypoint_of (filter available wps)).

Definition trip_request (sv : Services) (loc : CurrentLocation)
    (wps : list Waypoint) : Event :=
  TripRequest Driving
    (trip_points (start_of loc) (intermediate_legs sv wps)
       (option_map coords (end_leg sv wps)))
    (is_some (option_map coords (end_leg sv wps))).

Definition fallback_order (sv : Services) (loc : CurrentLocation)
    (wps : list Waypoint) : list Leg :=
  calculateGreedyInsertionOrder (start_of loc)
    (intermediate_legs sv wps ++ end_list (end_leg sv wps))
    (option_map coords (end_leg sv wps)).

(** The address of every available stop resolves. *)
Definition all_resolve (sv : Services) (wps : list Waypoint) : Prop :=
  forall w, In w (filter available wps) -> resolve sv (wp_address w) <> None.

(** The log of a run. *)
Definition log_of (run : list Event * Result) : list Event := fst run.

Lemma fst_bind_value {A B} (l : list Event) (a : A) (k : A -> M B) :
  fst (bind (l, Value a) k) = l ++ fst (k a).
Proof. unfold bind. destruct (k a). reflexivity. Qed.

Lemma attempt_trip_requests sv start inter endCoords :
  network_requests (fst (attempt_trip sv start inter endCoords)) =
  [TripRequest Driving (trip_points start inter endCoords)
     (is_some endCoords)].
Proof.
  unfold attempt_trip.
  destruct (fetchOSRMTripRoute_run sv Driving start inter endCoords)
    as [(t & -> & _)|(e & ->)].
  - cbn [bind try_catch].
    destruct ((1 <? length inter)%nat && order_unusable t (length inter));
      reflexivity.
  - reflexivity.
Qed.

Lemma stitch_legs_requests sv legs : forall prev acc,
  fst (stitch_legs sv prev legs acc) = segment_events prev legs.
Proof.
  induction legs as [|leg more IH]; intros prev acc; [reflexivity|].
  cbn [stitch_legs segment_events].
  destruct (osrm_route sv Driving [prev; coords leg]) as [[r|]|] eqn:E.
  - rewrite (stitch_leg_answered _ _ _ _ _ E), fst_bind_value, IH.
    reflexivity.
  - rewrite (stitch_leg_failed _ _ _ _ (or_intror E)), fst_bind_value, IH.
    reflexivity.
  - rewrite (stitch_leg_failed _ _ _ _ (or_introl E)), fst_bind_value, IH.
    reflexivity.
Qed.

Lemma segment_events_length legs : forall prev,
  length (segment_events prev legs) = length legs.
Proof.
  induction legs as [|leg more IH]; intros prev; [reflexivity|].
  cbn [segment_events length]. now rewrite IH.
Qed.

Lemma network_requests_segments legs : forall prev,
  network_requests (segment_events prev legs) = segment_events prev legs.
Proof.
  induction legs as [|leg more IH]; intros prev; [reflexivity|].
  cbn [segment_events]. unfold network_requests in *. cbn [filter is_toast negb].
  now rewrite IH.
Qed.

Lemma order_and_stitch_requests sv start inter gend tripResp useGreedy :
  fst (order_and_stitch sv start inter gend tripResp useGreedy) =
  if useGreedy
  then segment_events start
         (calculateGreedyInsertionOrder start (inter ++ end_list gend)
            (option_map coords gend))
  else [].
Proof.
  unfold order_and_stitch. fold (end_list gend). destruct useGreedy.
  - match goal with
    | |- context [stitch_legs ?sv ?p ?l ?a] =>
        pose proof (stitch_legs_requests sv l p a) as Hlog;
        destruct (stitch_legs_total sv l p a) as (log & s & Hrun & _)
    end.
    rewrite Hrun in Hlog |- *. cbn [fst] in Hlog. subst log.
    rewrite fst_bind_value. cbn [ret fst]. apply app_nil_r.
  - destruct tripResp; reflexivity.
Qed.

Lemma calculate_routed sv loc mode wps log r :
  filter available wps <> [] ->
  route_body sv loc mode (intermediate_of (filter available wps))
    (endWaypoint_of (filter available wps)) = (log, Value r) ->
  calculateMultiPointRoute sv (Some loc) true mode wps =
    ((if (length (filter available wps) =? 1)%nat
      then [ToastShown OnlyOneDestination] else []) ++ log,
     RouteSet r).
Proof.
  intros Hne Hrun. unfold calculateMultiPointRoute.
  destruct (filter available wps) as [|a avail] eqn:Ea; [congruence|].
  unfold intermediate_of, endWaypoint_of in Hrun. rewrite Hrun. reflexivity.
Qed.

Lemma network_requests_single (n : nat) :
  network_requests
    (if (n =? 1)%nat then [ToastShown OnlyOneDestination] else []) = [].
Proof. destruct (n =? 1)%nat; reflexivity. Qed.

(** X8.  The network traffic of a run whose available stops all resolve, in
    any transport mode: one geocoding request per available stop (the end
    stop last), then one trip request with the driving profile for the start,
    the intermediate stops and the end stop, then either nothing (the trip
    is used) or one driving segment request per stop along the order of the
    fallback, so never more segment requests than available stops. *)
Theorem requests_of_a_routed_run sv loc mode wps :
  filter available wps <> [] ->
  all_resolve sv wps ->
  exists segs,
    network_requests
      (log_of (calculateMultiPointRoute sv (Some loc) true mode wps)) =
      map geocode_event (geocoding_order wps)
        ++ trip_request sv loc wps :: segs /\
    (segs = [] \/
     segs = segment_events (start_of loc) (fallback_order sv loc wps)) /\
    (length segs <= length (filter available wps))%nat.
Proof.
  intros Hne Hres.
  destruct (partition_resolves sv _ Hres) as [Hinter Hend].
  destruct (route_body_run sv loc mode _ _ Hinter Hend
              (partition_nonempty _ Hne))
    as (alog & tripResp & useGreedy & slog & order & s & labelled
        & Hatt & Hstitch & _ & _ & Hrun).
  rewrite (calculate_routed sv loc mode wps _ _ Hne Hrun).
  pose proof (attempt_trip_requests sv (cl_longitude loc, cl_latitude loc)
                (geocoded_legs sv (intermediate_of (filter available wps)))
                (option_map coords
                   (geocoded_end sv (endWaypoint_of (filter available wps)))))
    as Ha.
  rewrite Hatt in Ha. cbn [fst] in Ha.
  pose proof (order_and_stitch_requests sv (cl_longitude loc, cl_latitude loc)
                (geocoded_legs sv (intermediate_of (filter available wps)))
                (geocoded_end sv (endWaypoint_of (filter available wps)))
                tripResp useGreedy) as Hs.
  rewrite Hstitch in Hs. cbn [fst] in Hs.
  exists slog. split; [|split].
  - unfold log_of. cbn [fst].
    rewrite !network_requests_app, network_requests_single,
      network_requests_geocodes, Ha.
    assert (Hseg : network_requests slog = slog).
    { rewrite Hs. destruct useGreedy; [apply network_requests_segments|].
      reflexivity. }
    rewrite Hseg. cbn [network_requests filter is_toast negb app].
    rewrite app_nil_r. reflexivity.
  - destruct useGreedy; [right|left]; exact Hs.
  - rewrite Hs. destruct useGreedy; [|cbn; lia].
    rewrite segment_events_length, greedy_length.
    rewrite (geocoded_total sv _ Hres). lia.
Qed.

(** The theorem for the single stop A of the example: three requests. *)
Lemma requests_of_a_routed_run_stop_A :
  exists segs,
    network_requests
      (log_of (calculateMultiPointRoute example_services
                 (Some example_location) true Walking [stop "A" false])) =
      map geocode_event (geocoding_order [stop "A" false])
        ++ trip_request example_services example_location [stop "A" false]
        :: segs /\
    (segs = [] \/
     segs = segment_events (start_of example_location)
              (fallback_order example_services example_location
                 [stop "A" false])) /\
    (length segs <= length (filter available [stop "A" false]))%nat.
Proof.
  apply (requests_of_a_routed_run example_services example_location Walking
           [stop "A" false]).
  - discriminate.
  - intros w [<-|[]]; discriminate.
Defined.

(** ** The fallback without a trip *)







(** ** The provider's trip, accepted *)

Lemma attempt_trip_accepted sv start inter endCoords t g order :
  osrm_trip sv Driving (trip_points start inter endCoords)
    (is_some endCoords) = Some (Some t) ->
  raw_trip_geometry t = Some g ->
  raw_waypoint_order t = Some order ->
  length order = length inter ->
  Forall (in_range (length inter)) order ->
  attempt_trip sv start inter endCoords =
  ([TripRequest Driving (trip_points start inter endCoords)
      (is_some endCoords)],
   Value (Some (mkTripRoute (map swap_axes g) (raw_trip_distance t)
                  (raw_trip_duration t) (Some order)
                  (picked_legs inter order)),
          false)).
Proof.
  intros Htrip Hg Ho Hlen Hin. unfold attempt_trip.
  rewrite (fetchOSRMTripRoute_found _ _ _ _ _ _ _ _ Htrip Hg Ho Hlen).
  rewrite (pick_order_in_range inter order Hin).
  cbn [emit ret bind try_catch app].
  unfold order_unusable. cbn [waypoint_order].
  apply Nat.eqb_eq in Hlen. rewrite Hlen. cbn [negb].
  rewrite andb_false_r. reflexivity.
Qed.

(** X10.  When every available stop resolves and the provider's trip has a
    geometry and an ordering array of one in-range index per intermediate
    stop, the route is the provider's: its distance, its duration multiplied
    for the mode, its geometry as [[lat, lon]], the intermediate stops in the
    array's order, and no segment request.  The stops of the route are the
    intermediate stops only: the end stop is sent to the provider, but not
    added to the stops. *)
Theorem accepted_trip_is_the_route sv loc mode wps t g order :
  all_resolve sv wps ->
  filter available wps <> [] ->
  osrm_trip sv Driving
    (trip_points (start_of loc) (intermediate_legs sv wps)
       (option_map coords (end_leg sv wps)))
    (is_some (option_map coords (end_leg sv wps))) = Some (Some t) ->
  raw_trip_geometry t = Some g ->
  raw_waypoint_order t = Some order ->
  length order = length (intermediate_legs sv wps) ->
  Forall (in_range (length (intermediate_legs sv wps))) order ->
  exists log r,
    calculateMultiPointRoute sv (Some loc) true mode wps
      = (log, RouteSet r) /\
    network_requests log =
      map geocode_event (geocoding_order wps) ++ [trip_request sv loc wps] /\
    last log (ToastShown MissingInformation)
      = ToastShown (RouteSummary ProviderTrip) /\
    distance r = raw_trip_distance t /\
    duration r = compensate mode (raw_trip_duration t) /\
    coordinates r = map swap_axes g /\
    map position (tl (waypoints r)) =
      map coords (picked_legs (intermediate_legs sv wps) order) /\
    length (tl (waypoints r)) = length (intermediate_legs sv wps).
Proof.
  intros Hres Hne Htrip Hg Ho Hlen Hin.
  destruct (partition_resolves sv _ Hres) as [Hinter Hend].
  destruct (route_body_run sv loc mode _ _ Hinter Hend
              (partition_nonempty _ Hne))
    as (alog & tripResp & useGreedy & slog & order' & s & labelled
        & Hatt & Hstitch & Hpay & Hlab & Hrun).
  unfold start_of, intermediate_legs, end_leg in Htrip, Hlen, Hin.
  rewrite (attempt_trip_accepted _ _ _ _ _ _ _ Htrip Hg Ho Hlen Hin) in Hatt.
  injection Hatt as <- <- <-.
  cbn [order_and_stitch reordered trip_geometry trip_distance trip_duration
       ret] in Hstitch.
  injection Hstitch as <- <- <-.
  destruct (label_from_run (endWaypoint_of (filter available wps))
              (picked_legs
                 (geocoded_legs sv (intermediate_of (filter available wps)))
                 order)
              (length
                 (picked_legs
                    (geocoded_legs sv
                       (intermediate_of (filter available wps)))
                    order))
              0 Hpay)
    as (xs & Hxs & Hpos & _ & _).
  rewrite Hlab in Hxs. injection Hxs as <-.
  rewrite (calculate_routed sv loc mode wps _ _ Hne Hrun).
  eexists _, _. split; [reflexivity|].
  cbn [waypoints tl distance duration coordinates totalDist totalDur
       allCoords].
  split; [|split; [|split; [|split; [|split; [|split]]]]];
    try reflexivity.
  - rewrite !network_requests_app, network_requests_single,
      network_requests_geocodes.
    reflexivity.
  - rewrite !app_assoc. apply last_last.
  - exact Hpos.
  - rewrite <- (length_map position), Hpos, length_map.
    destruct (pick_order_run
                (geocoded_legs sv (intermediate_of (filter available wps)))
                order) as [(r & Hr & _ & Hl)|(e & He)].
    + rewrite (pick_order_in_range _ _ Hin) in Hr. injection Hr as <-.
      unfold intermediate_legs. congruence.
    + rewrite (pick_order_in_range _ _ Hin) in He. discriminate.
Qed.

(** A provider whose trips visit the second of two intermediate stops first. *)
Definition reordering_services : Services :=
  mkServices example_geocoder
    (fun _ points _ =>
       Some (Some (mkTripRaw (Some points) 1000 600 (Some [1; 0]%Z))))
    (fun _ _ => None).

(** The theorem for the stops A, B and E (the end), on foot. *)
Lemma accepted_trip_is_the_route_A_B_E :
  exists log r,
    calculateMultiPointRoute reordering_services (Some example_location) true
      Walking [stop "A" false; stop "B" false; stop "E" true]
      = (log, RouteSet r) /\
    network_requests log =
      map geocode_event
        (geocoding_order [stop "A" false; stop "B" false; stop "E" true])
      ++ [trip_request reordering_services example_location
            [stop "A" false; stop "B" false; stop "E" true]] /\
    last log (ToastShown MissingInformation)
      = ToastShown (RouteSummary ProviderTrip) /\
    distance r = 1000 /\
    duration r = compensate Walking 600 /\
    coordinates r = map swap_axes [(0, 0); (0, 1); (0, 2); (0, 3)] /\
    map position (tl (waypoints r)) =
      map coords
        (picked_legs
           (intermediate_legs reordering_services
              [stop "A" false; stop "B" false; stop "E" true])
           [1; 0]%Z) /\
    length (tl (waypoints r)) =
      length (intermediate_legs reordering_services
                [stop "A" false; stop "B" false; stop "E" true]).
Proof.
  apply (accepted_trip_is_the_route reordering_services example_location
           Walking [stop "A" false; stop "B" false; stop "E" true]
           (mkTripRaw (Some [(0, 0); (0, 1); (0, 2); (0, 3)]) 1000 600
              (Some [1; 0]%Z))
           [(0, 0); (0, 1); (0, 2); (0, 3)] [1; 0]%Z).
  - intros w [<-|[<-|[<-|[]]]]; discriminate.
  - discriminate.
  - reflexivity.
  - reflexivity.
  - reflexivity.
  - reflexivity.
  - repeat constructor; cbv - [Z.le Z.lt]; lia.
Defined.

(** ** Estimates without the segment provider *)






(** ** The stop list and the engine *)

Lemma findIndex_app_first {A} (p : A -> bool) pre y post :
  (forall x, In x pre -> p x = false) -> p y = true ->
  findIndex p (pre ++ y :: post) = Some (length pre).
Proof.
  intros Hpre Hy. induction pre as [|x pre IH]; cbn [app findIndex length].
  - now rewrite Hy.
  - rewrite (Hpre x (or_introl eq_refl)), IH; [reflexivity|].
    intros z Hz. apply Hpre. now right.
Qed.

Lemma remove_at_middle {A} (pre : list A) y post :
  remove_at (length pre) (pre ++ y :: post) = pre ++ post.
Proof.
  induction pre as [|x pre IH]; cbn [app length remove_at]; [reflexivity|].
  now rewrite IH.
Qed.

Lemma nth_error_middle {A} (pre : list A) y post :
  nth_error (pre ++ y :: post) (length pre) = Some y.
Proof.
  rewrite nth_error_app2, Nat.sub_diag by lia. reflexivity.
Qed.

Lemma filter_all {A} (p : A -> bool) l :
  (forall x, In x l -> p x = true) -> filter p l = l.
Proof.
  intros H. induction l as [|x l IH]; [reflexivity|].
  cbn [filter]. rewrite (H x (or_introl eq_refl)), IH; [reflexivity|].
  intros z Hz. apply H. now right.
Qed.

Lemma available_with_isEndPoint wp e :
  available (with_isEndPoint wp e) = available wp.
Proof. reflexivity. Qed.

Lemma filter_ids_nodup (p : Waypoint -> bool) wps :
  NoDup (map wp_id wps) -> NoDup (map wp_id (filter p wps)).
Proof.
  induction wps as [|x wps IH]; intros H; [constructor|].
  cbn [map] in H. inversion H as [|? ? Hnot Hrest]; subst.
  cbn [filter]. destruct (p x); [|now apply IH].
  cbn [map]. constructor; [|now apply IH].
  intros Hin. apply Hnot. apply in_map_iff in Hin.
  destruct Hin as (z & Hz & Hzin). apply filter_In in Hzin.
  apply in_map_iff. exists z. tauto.
Qed.

Lemma split_at_id w wps :
  NoDup (map wp_id wps) -> In w wps ->
  exists pre post,
    wps = pre ++ w :: post /\
    (forall x, In x (pre ++ post) -> String.eqb (wp_id x) (wp_id w) = false).
Proof.
  intros Hnd Hin. destruct (in_split _ _ Hin) as (pre & post & ->).
  exists pre, post. split; [reflexivity|].
  intros x Hx. apply String.eqb_neq. intros Heq.
  rewrite map_app in Hnd. cbn [map] in Hnd.
  apply NoDup_remove_2 in Hnd. apply Hnd. rewrite <- map_app, <- Heq.
  now apply in_map.
Qed.

Lemma set_end_point_other id l :
  (forall x, In x l -> String.eqb (wp_id x) id = false) ->
  handleSetEndPoint id l = map (fun x => with_isEndPoint x false) l.
Proof.
  intros H. unfold handleSetEndPoint. apply map_ext_in.
  intros x Hx. now rewrite (H x Hx).
Qed.

Lemma findIndex_flag_free (l : list Waypoint) :
  forall x, In x (map (fun x => with_isEndPoint x false) l) ->
            wp_isEndPoint x = false.
Proof.
  intros x Hx. apply in_map_iff in Hx. destruct Hx as (z & <- & _).
  reflexivity.
Qed.

(** X12.  Choosing a stop as the end point, in a list of stops with distinct
    identifiers: the chosen stop is then the only flagged stop, and when it
    is available the engine takes it for its end stop, with every other
    available stop, in list order, as the intermediate stops; the chosen stop
    is geocoded last. *)
Theorem chosen_end_point_is_the_engines w wps :
  NoDup (map wp_id wps) ->
  In w wps ->
  available w = true ->
  filter wp_isEndPoint (handleSetEndPoint (wp_id w) wps)
    = [with_isEndPoint w true] /\
  endWaypoint_of (filter available (handleSetEndPoint (wp_id w) wps))
    = Some (with_isEndPoint w true) /\
  intermediate_of (filter available (handleSetEndPoint (wp_id w) wps))
    = map (fun x => with_isEndPoint x false)
        (filter (fun x => negb (String.eqb (wp_id x) (wp_id w)))
           (filter available wps)) /\
  geocoding_order (handleSetEndPoint (wp_id w) wps)
    = intermediate_of (filter available (handleSetEndPoint (wp_id w) wps))
        ++ [with_isEndPoint w true].
Proof.
  intros Hnd Hin Hav.
  assert (Hflag : forall l,
            filter wp_isEndPoint (map (fun x => with_isEndPoint x false) l)
              = []).
  { induction l as [|x l IH]; [reflexivity|exact IH]. }
  assert (Hself : String.eqb (wp_id w) (wp_id w) = true)
    by apply String.eqb_refl.
  split.
  - destruct (split_at_id w wps Hnd Hin) as (pre & post & -> & Hother).
    unfold handleSetEndPoint. rewrite map_app. cbn [map]. rewrite Hself.
    fold (handleSetEndPoint (wp_id w) pre).
    fold (handleSetEndPoint (wp_id w) post).
    rewrite !set_end_point_other
      by (intros x Hx; apply Hother, in_or_app; tauto).
    rewrite filter_app. cbn [filter with_isEndPoint wp_isEndPoint].
    now rewrite !Hflag.
  - assert (Hswap : filter available (handleSetEndPoint (wp_id w) wps)
                    = handleSetEndPoint (wp_id w) (filter available wps)).
    { unfold handleSetEndPoint. rewrite filter_map_swap. f_equal.
      apply filter_ext. intros x.
      destruct (String.eqb (wp_id x) (wp_id w)); reflexivity. }
    assert (Hin' : In w (filter available wps))
      by (apply filter_In; tauto).
    destruct (split_at_id w _ (filter_ids_nodup available wps Hnd) Hin')
      as (pre & post & Hsplit & Hother).
    assert (Hrun : endWaypoint_of
                     (filter available (handleSetEndPoint (wp_id w) wps))
                   = Some (with_isEndPoint w true) /\
                   intermediate_of
                     (filter available (handleSetEndPoint (wp_id w) wps))
                   = map (fun x => with_isEndPoint x false)
                       (filter
                          (fun x => negb (String.eqb (wp_id x) (wp_id w)))
                          (filter available wps))).
    { rewrite Hswap, Hsplit. unfold handleSetEndPoint.
      rewrite map_app. cbn [map]. rewrite Hself.
      fold (handleSetEndPoint (wp_id w) pre).
      fold (handleSetEndPoint (wp_id w) post).
      rewrite !set_end_point_other
        by (intros x Hx; apply Hother, in_or_app; tauto).
      unfold endWaypoint_of, intermediate_of.
      rewrite findIndex_app_first by (apply findIndex_flag_free || reflexivity).
      rewrite nth_error_middle, remove_at_middle.
      split; [reflexivity|].
      rewrite filter_app. cbn [filter]. rewrite Hself. cbn [negb].
      rewrite <- filter_app, filter_all, map_app; [reflexivity|].
      intros x Hx. now rewrite (Hother x Hx). }
    destruct Hrun as [Hend Hinter].
    split; [exact Hend|]. split; [exact Hinter|].
    unfold geocoding_order. cbv zeta. now rewrite Hend.
Qed.

(** The theorem for the stops A (flagged before) and B, B being chosen. *)
Lemma chosen_end_point_is_the_engines_B :
  filter wp_isEndPoint
    (handleSetEndPoint (wp_id (stop "B" false))
       [stop "A" true; stop "B" false])
    = [with_isEndPoint (stop "B" false) true] /\
  endWaypoint_of
    (filter available
       (handleSetEndPoint (wp_id (stop "B" false))
          [stop "A" true; stop "B" false]))
    = Some (with_isEndPoint (stop "B" false) true) /\
  intermediate_of
    (filter available
       (handleSetEndPoint (wp_id (stop "B" false))
          [stop "A" true; stop "B" false]))
    = map (fun x => with_isEndPoint x false)
        (filter
           (fun x => negb (String.eqb (wp_id x) (wp_id (stop "B" false))))
           (filter available [stop "A" true; stop "B" false])) /\
  geocoding_order
    (handleSetEndPoint (wp_id (stop "B" false))
       [stop "A" true; stop "B" false])
    = intermediate_of
        (filter available
           (handleSetEndPoint (wp_id (stop "B" false))
              [stop "A" true; stop "B" false]))
        ++ [with_isEndPoint (stop "B" false) true].
Proof.
  apply (chosen_end_point_is_the_engines (stop "B" false)
           [stop "A" true; stop "B" false]).
  - repeat constructor; cbn; intuition discriminate.
  - right. left. reflexivity.
  - reflexivity.
Defined.

(** X13.  Marking stops as visited: when the stops with the identifier are
    unvisited, the engine's available stops afterwards are the ones before
    without those stops, in the same order; marking twice gives the list
    back (an absent flag being [false]). *)
Theorem visited_stop_is_skipped id wps :
  (forall x, In x wps -> wp_id x = id -> wp_visited x = false) ->
  filter available (handleToggleVisited id wps)
    = filter (fun x => negb (String.eqb (wp_id x) id))
        (filter available wps) /\
  handleToggleVisited id (handleToggleVisited id wps) = wps.
Proof.
  intros H. split.
  - induction wps as [|x wps IH]; [reflexivity|].
    assert (IH' := IH (fun z Hz => H z (or_intror Hz))).
    cbn [handleToggleVisited map filter].
    fold (handleToggleVisited id wps).
    destruct (String.eqb (wp_id x) id) eqn:E.
    + apply String.eqb_eq in E.
      rewrite (H x (or_introl eq_refl) E).
      unfold available at 1. cbn [with_visited wp_visited negb andb].
      rewrite IH'. destruct (available x); [|reflexivity].
      cbn [filter]. apply String.eqb_eq in E. now rewrite E.
    + rewrite IH'. destruct (available x); [|reflexivity].
      cbn [filter]. now rewrite E.
  - clear H. induction wps as [|x wps IH]; [reflexivity|].
    cbn [handleToggleVisited map].
    fold (handleToggleVisited id wps).
    fold (handleToggleVisited id (handleToggleVisited id wps)).
    rewrite IH. destruct (String.eqb (wp_id x) id) eqn:E.
    + cbn [with_visited wp_id]. rewrite E.
      destruct x as [i a n c v e]. cbn. now rewrite negb_involutive.
    + now rewrite E.
Qed.

(** The theorem for the stops A and B, A being marked. *)
Lemma visited_stop_is_skipped_A :
  filter available
    (handleToggleVisited "A" [stop "A" false; stop "B" false])
    = filter (fun x => negb (String.eqb (wp_id x) "A"))
        (filter available [stop "A" false; stop "B" false]) /\
  handleToggleVisited "A"
    (handleToggleVisited "A" [stop "A" false; stop "B" false])
    = [stop "A" false; stop "B" false].
Proof.
  apply (visited_stop_is_skipped "A" [stop "A" false; stop "B" false]).
  intros x [<-|[<-|[]]] _; reflexivity.
Defined.

Lemma remove_id_length id wps :
  NoDup (map wp_id wps) ->
  (length wps
   <= S (length (filter (fun wp => negb (String.eqb (wp_id wp) id)) wps)))%nat.
Proof.
  induction wps as [|x wps IH]; intros Hnd; [cbn; lia|].
  cbn [map] in Hnd. inversion Hnd as [|? ? Hnot Hrest]; subst.
  cbn [filter]. destruct (String.eqb (wp_id x) id) eqn:E; cbn [negb length].
  - apply String.eqb_eq in E. rewrite filter_all; [lia|].
    intros z Hz. apply negb_true_iff, String.eqb_neq. intros Heq.
    apply Hnot. rewrite E, <- Heq. now apply in_map.
  - specialize (IH Hrest). lia.
Qed.

(** X14.  Removing a stop from a list of stops with distinct identifiers
    never empties the list: a single stop is kept whatever the identifier,
    and of several stops exactly those with another identifier stay, in
    order, which is all but at most one. *)
Theorem removing_keeps_a_stop id wps :
  NoDup (map wp_id wps) ->
  wps <> [] ->
  onRemoveWaypoint id wps <> [] /\
  (length wps <= S (length (onRemoveWaypoint id wps)))%nat /\
  (forall x, In x (onRemoveWaypoint id wps) -> In x wps) /\
  ((1 < length wps)%nat ->
   forall x, In x (onRemoveWaypoint id wps) <-> In x wps /\ wp_id x <> id).
Proof.
  intros Hnd Hne. unfold onRemoveWaypoint.
  pose proof (remove_id_length id wps Hnd) as Hlen.
  destruct (1 <? length wps)%nat eqn:E.
  - apply Nat.ltb_lt in E. split; [|split; [exact Hlen|split]].
    + intros Hnil. rewrite Hnil in Hlen. cbn in Hlen. lia.
    + intros x Hx. now apply filter_In in Hx.
    + intros _ x. rewrite filter_In, negb_true_iff, String.eqb_neq.
      reflexivity.
  - apply Nat.ltb_ge in E. split; [exact Hne|]. split; [lia|].
    split; [tauto|]. intros Hlt. lia.
Qed.

(** The theorem for the stops A and B, A being removed. *)
Lemma removing_keeps_a_stop_A :
  onRemoveWaypoint "A" [stop "A" false; stop "B" false] <> [] /\
  (length [stop "A" false; stop "B" false]
   <= S (length (onRemoveWaypoint "A" [stop "A" false; stop "B" false])))%nat /\
  (forall x, In x (onRemoveWaypoint "A" [stop "A" false; stop "B" false]) ->
             In x [stop "A" false; stop "B" false]) /\
  ((1 < length [stop "A" false; stop "B" false])%nat ->
   forall x,
     In x (onRemoveWaypoint "A" [stop "A" false; stop "B" false]) <->
     In x [stop "A" false; stop "B" false] /\ wp_id x <> "A"%string).
Proof.
  apply (removing_keeps_a_stop "A" [stop "A" false; stop "B" false]).
  - repeat constructor; cbn; intuition discriminate.
  - discriminate.
Defined.

Lemma existsb_filter_nil {A} (p : A -> bool) l :
  existsb p l = false <-> filter p l = [].
Proof.
  induction l as [|x l IH]; [tauto|].
  cbn [existsb filter]. destruct (p x); cbn [orb]; [|exact IH].
  split; discriminate.
Qed.

(** X15.  The engine starts exactly when the condition of the recalculating
    effect of [RouteApp] holds and the map library is loaded: otherwise it
    ends at once with a single toast (missing information, or no
    destinations) and without any request; when it starts it ends with a
    route or with a reported failure. *)
Theorem calculation_starts_when sv currentLocation leaflet mode wps :
  (snd (calculateMultiPointRoute sv currentLocation leaflet mode wps)
     = NotStarted
   <-> recalculates currentLocation wps && leaflet = false) /\
  (snd (calculateMultiPointRoute sv currentLocation leaflet mode wps)
     = NotStarted ->
   fst (calculateMultiPointRoute sv currentLocation leaflet mode wps)
     = [ToastShown (if is_some currentLocation && leaflet
                    then NoDestinations else MissingInformation)]).
Proof.
  unfold calculateMultiPointRoute, recalculates.
  destruct currentLocation as [loc|], leaflet; cbn [is_some andb];
    rewrite ?andb_false_r; try (split; [split|]; reflexivity).
  rewrite andb_true_r.
  destruct (filter available wps) as [|a avail] eqn:E.
  - apply existsb_filter_nil in E. rewrite E. repeat split.
  - assert (Hex : existsb available wps = true).
    { destruct (existsb available wps) eqn:Ex; [reflexivity|].
      apply existsb_filter_nil in Ex. congruence. }
    rewrite Hex.
    match goal with
    | |- context [route_body ?a ?b ?c ?d ?e] =>
        destruct (route_body a b c d e) as [log [r|e']]
    end; cbn [snd]; split; try split; discriminate.
Qed.

(** ** Imported stops *)

Lemma trimStart_head s :
  trimStart s = EmptyString \/
  exists c t, trimStart s = String c t /\ is_space c = false.
Proof.
  induction s as [|c s IH]; [now left|].
  cbn [trimStart]. destruct (is_space c) eqn:E; [exact IH|].
  right. eauto.
Qed.

Lemma trim_head s :
  trim s = EmptyString \/
  exists c t, trim s = String c t /\ is_space c = false.
Proof.
  unfold trim. destruct (trimStart_head s) as [->|(c & t & -> & Hc)].
  - now left.
  - right. cbn [trimEnd]. rewrite Hc. destruct (trimEnd t); eauto.
Qed.

Lemma trim_not_blank s : nonempty (trim s) = true -> is_blank (trim s) = false.
Proof.
  destruct (trim_head s) as [->|(c & t & -> & Hc)]; [discriminate|].
  intros _. cbn [is_blank]. now rewrite Hc.
Qed.

(** What the import makes of a line whose address is not empty. *)
Definition routable (wp : Waypoint) : Prop :=
  available wp = true /\ wp_visited wp = false /\ wp_isEndPoint wp = false /\
  wp_coordinates wp = None.

Lemma parse_line_routable uid line :
  nonempty (wp_address (parse_line uid line)) = true ->
  routable (parse_line uid line).
Proof.
  unfold parse_line, routable, available.
  destruct (String.index 0 "," line) as [firstComma|];
    cbn [wp_address wp_visited wp_isEndPoint wp_coordinates negb andb];
    intros H; rewrite (trim_not_blank _ H); repeat split.
Qed.

Lemma parse_lines_routable uids lines : forall i,
  Forall routable
    (filter (fun wp => nonempty (wp_address wp)) (parse_lines uids i lines)).
Proof.
  induction lines as [|line more IH]; intros i; [constructor|].
  cbn [parse_lines filter].
  destruct (nonempty (wp_address (parse_line (uids i) line))) eqn:E;
    [|apply IH].
  constructor; [now apply parse_line_routable|apply IH].
Qed.

Lemma parse_lines_length uids lines : forall i,
  List.length (parse_lines uids i lines) = List.length lines.
Proof.
  induction lines as [|line more IH]; intros i; [reflexivity|].
  cbn [parse_lines List.length]. now rewrite IH.
Qed.

Lemma routable_geocoding_order wps :
  Forall routable wps ->
  filter available wps = wps /\ geocoding_order wps = wps.
Proof.
  intros H. rewrite Forall_forall in H.
  assert (Hav : filter available wps = wps).
  { apply filter_all. intros x Hx. apply (H x Hx). }
  split; [exact Hav|].
  unfold geocoding_order, intermediate_of, endWaypoint_of. cbv zeta.
  rewrite Hav.
  assert (Hnone : findIndex wp_isEndPoint wps = None).
  { apply findIndex_None. intros x Hx. apply (H x Hx). }
  rewrite Hnone. apply app_nil_r.
Qed.

(** X16.  The import of a text file: the stops read from the file are all
    unvisited, without end point and with an address that is not blank, so
    the engine routes every one of them, in file order; there are at most as
    many as the file has lines; they replace the stop list, unless there is
    none, in which case the stop list stays as it is. *)
Theorem imported_stops_are_routable uids text wps :
  exists newWaypoints,
    handleFileUpload uids text wps =
      match newWaypoints with [] => wps | _ :: _ => newWaypoints end /\
    Forall routable newWaypoints /\
    filter available newWaypoints = newWaypoints /\
    geocoding_order newWaypoints = newWaypoints /\
    (List.length newWaypoints <= List.length (split "010" text))%nat.
Proof.
  unfold handleFileUpload. cbv zeta.
  set (lines := filter (fun l => (0 <? String.length l)%nat)
                  (map trim (split "010" text))).
  set (new := filter (fun wp => nonempty (wp_address wp))
                (parse_lines uids 0 lines)).
  assert (Hr : Forall routable new) by apply parse_lines_routable.
  exists new. split; [destruct new; reflexivity|].
  split; [exact Hr|].
  destruct (routable_geocoding_order new Hr) as [Hav Hgeo].
  split; [exact Hav|]. split; [exact Hgeo|].
  unfold new. etransitivity; [apply filter_length_le|].
  rewrite parse_lines_length. unfold lines.
  etransitivity; [apply filter_length_le|]. now rewrite length_map.
Qed.

(** ** The legend *)

Lemma truthy_nonempty s v : truthy s = Some v -> v <> EmptyString.
Proof.
  destruct s as [x|]; [|discriminate]. cbn [truthy].
  destruct x; cbn [nonempty]; [discriminate|].
  intros H. injection H as <-. discriminate.
Qed.

Lemma route_body_first sv loc mode stops endWaypoint log r :
  route_body sv loc mode stops endWaypoint = (log, Value r) ->
  exists rest, waypoints r = start_waypoint loc :: rest.
Proof.
  unfold route_body, assemble.
  repeat match goal with
         | |- context [bind ?m _] =>
             destruct m as [? [?|?]] eqn:?; cbn [bind]; [|discriminate]
         end.
  cbn [ret]. intros H. injection H as _ <-.
  cbn [waypoints]. eauto.
Qed.

(** X17.  The labels of the legend: no label is empty; a stop that has
    neither a name nor an address is shown as its number; and in the legend
    of a route that the engine returns, the first label is the one of the
    user's location. *)
Theorem legend_labels :
  (forall wp, stopLabel wp <> EmptyString) /\
  (forall wp, displayNumber wp <> 0%nat -> name wp = None ->
              address wp = None ->
              stopLabel wp = ("Stop " ++ show_nat (displayNumber wp))%string) /\
  (forall sv currentLocation leaflet mode wps log r,
     calculateMultiPointRoute sv currentLocation leaflet mode wps
       = (log, RouteSet r) ->
     exists labels,
       map stopLabel (waypoints r) = "Your Location"%string :: labels).
Proof.
  split; [|split].
  - intros wp. unfold stopLabel. cbv zeta.
    destruct (displayNumber wp =? 0)%nat; [discriminate|].
    destruct (truthy (option_map trim (name wp))) as [l|] eqn:E1;
      [exact (truthy_nonempty _ _ E1)|].
    match goal with
    | |- context [truthy ?x] => destruct (truthy x) as [l|] eqn:E2
    end; [exact (truthy_nonempty _ _ E2)|].
    destruct (show_nat (displayNumber wp)); discriminate.
  - intros wp Hn Hname Haddr. unfold stopLabel. cbv zeta.
    apply Nat.eqb_neq in Hn. rewrite Hn, Hname, Haddr. reflexivity.
  - intros sv [loc|] [|] mode wps log r; try discriminate.
    unfold calculateMultiPointRoute.
    destruct (filter available wps) as [|a avail]; [discriminate|].
    destruct (route_body sv loc mode _ _) as [l [x|e]] eqn:E;
      [|discriminate].
    intros H. injection H as _ <-.
    destruct (route_body_first _ _ _ _ _ _ _ E) as (rest & ->).
    cbn [map]. eexists. reflexivity.
Qed.

(** ** The figures of the legend *)

Lemma trunc_nonneg x : 0 <= x -> trunc x = Zfloor x.
Proof.
  intros H. unfold trunc. destruct (Rle_dec 0 x); [reflexivity|contradiction].
Qed.

(** X18.  A duration that is not negative is shown in whole hours and
    minutes, rounded down to the minute: the minutes are below 60, the
    seconds are dropped, and the hours are left out below one hour. *)
Theorem duration_shown_in_whole_minutes d :
  0 <= d ->
  exists h m : Z,
    (0 <= h)%Z /\ (0 <= m < 60)%Z /\
    IZR (3600 * h + 60 * m) <= d < IZR (3600 * h + 60 * m) + 60 /\
    formatDuration d =
      if (0 <? h)%Z
      then (show_int h ++ "h " ++ show_int m ++ "m")%string
      else (show_int m ++ "m")%string.
Proof.
  intros Hd. unfold formatDuration, js_rem. cbv zeta.
  assert (Hq : 0 <= d / 3600) by lra.
  rewrite (trunc_nonneg _ Hq).
  set (h := Zfloor (d / 3600)).
  set (m := Zfloor ((d - 3600 * IZR h) / 60)).
  pose proof (Zfloor_bound (d / 3600)) as Hh. fold h in Hh.
  pose proof (Zfloor_bound ((d - 3600 * IZR h) / 60)) as Hm. fold m in Hm.
  exists h, m. split; [|split; [|split]].
  - apply (Zfloor_lub 0). exact Hq.
  - split.
    + apply (Zfloor_lub 0). cbn. lra.
    + apply lt_IZR. lra.
  - rewrite plus_IZR, !mult_IZR. lra.
  - reflexivity.
Qed.

(** The theorem for 3725 seconds. *)
Lemma duration_shown_in_whole_minutes_3725 :
  exists h m : Z,
    (0 <= h)%Z /\ (0 <= m < 60)%Z /\
    IZR (3600 * h + 60 * m) <= 3725 < IZR (3600 * h + 60 * m) + 60 /\
    formatDuration 3725 =
      if (0 <? h)%Z
      then (show_int h ++ "h " ++ show_int m ++ "m")%string
      else (show_int m ++ "m")%string.
Proof.
  apply (duration_shown_in_whole_minutes 3725). lra.
Defined.


(** ** Trips without a usable ordering *)

(** X20.  When the provider's trip has a geometry but no ordering array, or
    one whose length is not the number of destinations, the client returns
    the destinations in the order in which they were given. *)
Theorem trip_without_order_keeps_input_order sv mode start dests endCoords t g :
  osrm_trip sv mode (trip_points start dests endCoords) (is_some endCoords)
    = Some (Some t) ->
  raw_trip_geometry t = Some g ->
  (raw_waypoint_order t = None \/
   exists o, raw_waypoint_order t = Some o /\ length o <> length dests) ->
  fetchOSRMTripRoute sv mode start dests endCoords =
    ([TripRequest mode (trip_points start dests endCoords)
        (is_some endCoords)],
     Value (mkTripRoute (map swap_axes g) (raw_trip_distance t)
              (raw_trip_duration t) (raw_waypoint_order t) dests)).
Proof.
  intros Htrip Hg Ho. unfold fetchOSRMTripRoute.
  fold (trip_points start dests endCoords). rewrite Htrip, Hg.
  destruct dests as [|d dests']; [reflexivity|].
  destruct Ho as [->|(o & -> & Hlen)].
  - rewrite pick_order_identity. reflexivity.
  - apply Nat.eqb_neq in Hlen. rewrite Hlen, pick_order_identity.
    reflexivity.
Qed.

(** The theorem for the legs A and B and the example provider, whose trips
    carry no ordering array. *)
Lemma trip_without_order_keeps_input_order_A_B :
  fetchOSRMTripRoute example_services Driving (0, 0)
    [example_stop "A" (0, 1); example_stop "B" (0, 2)] None =
    ([TripRequest Driving
        (trip_points (0, 0)
           [example_stop "A" (0, 1); example_stop "B" (0, 2)] None)
        (is_some (@None Coords))],
     Value (mkTripRoute (map swap_axes [(0, 0); (0, 1); (0, 2)]) 1000 600 None
              [example_stop "A" (0, 1); example_stop "B" (0, 2)])).
Proof.
  apply (trip_without_order_keeps_input_order example_services Driving (0, 0)
           [example_stop "A" (0, 1); example_stop "B" (0, 2)] None
           (mkTripRaw (Some [(0, 0); (0, 1); (0, 2)]) 1000 600 None)
           [(0, 0); (0, 1); (0, 2)]).
  - reflexivity.
  - reflexivity.
  - left. reflexivity.
Defined.

(** ** A single stop *)





(** ** Reported failures *)







(** ** Stops that are not available *)

Lemma calculate_available sv currentLocation leaflet mode wps1 wps2 :
  filter available wps1 = filter available wps2 ->
  calculateMultiPointRoute sv currentLocation leaflet mode wps1 =
  calculateMultiPointRoute sv currentLocation leaflet mode wps2.
Proof.
  intros H. unfold calculateMultiPointRoute. rewrite H. reflexivity.
Qed.

Lemma filter_filter_same {A} (p : A -> bool) l :
  filter p (filter p l) = filter p l.
Proof.
  apply filter_all. intros x Hx. now apply filter_In in Hx.
Qed.

(** X23.  Visited stops and stops with a blank address take no part in a
    run: two stop lists with the same available stops give the same run
    (the same requests, toasts and route); so does a list without its
    unavailable stops, and a list to which the add button has appended its
    empty stop. *)
Theorem unavailable_stops_take_no_part sv currentLocation leaflet mode :
  (forall wps1 wps2,
     filter available wps1 = filter available wps2 ->
     calculateMultiPointRoute sv currentLocation leaflet mode wps1 =
     calculateMultiPointRoute sv currentLocation leaflet mode wps2) /\
  (forall wps,
     calculateMultiPointRoute sv currentLocation leaflet mode
       (filter available wps) =
     calculateMultiPointRoute sv currentLocation leaflet mode wps) /\
  (forall uid wps,
     calculateMultiPointRoute sv currentLocation leaflet mode
       (onAddWaypoint uid wps) =
     calculateMultiPointRoute sv currentLocation leaflet mode wps).
Proof.
  split; [|split].
  - intros wps1 wps2. apply calculate_available.
  - intros wps. apply calculate_available, filter_filter_same.
  - intros uid wps. apply calculate_available.
    unfold onAddWaypoint. rewrite filter_app. cbn [filter available].
    cbn. apply app_nil_r.
Qed.

(** ** The end point of the panel and of the engine *)

Lemma endWaypoint_of_find avail :
  endWaypoint_of avail = find wp_isEndPoint avail.
Proof.
  unfold endWaypoint_of. induction avail as [|x l IH]; [reflexivity|].
  cbn [findIndex find]. destruct (wp_isEndPoint x); [reflexivity|].
  destruct (findIndex wp_isEndPoint l) as [i|]; exact IH.
Qed.

Lemma find_filter_skip (wps : list Waypoint) :
  find wp_isEndPoint (filter available wps) =
  find (fun wp => wp_isEndPoint wp && available wp) wps.
Proof.
  induction wps as [|x l IH]; [reflexivity|].
  cbn [filter find]. destruct (available x) eqn:Ea.
  - cbn [find]. rewrite andb_true_r. destruct (wp_isEndPoint x);
      [reflexivity|exact IH].
  - rewrite andb_false_r. exact IH.
Qed.

(** X24.  The end point that the panel names and the end stop of the
    engine: the engine's end stop is the first stop that is flagged and
    available; it is the stop that the panel names (the first flagged stop)
    whenever that stop is available; when the panel's stop is visited or has
    a blank address the engine passes it over, and the two differ. *)
Theorem panel_and_engine_end_point wps :
  endWaypoint_of (filter available wps)
    = find (fun wp => wp_isEndPoint wp && available wp) wps /\
  (forall e, endpoint wps = Some e -> available e = true ->
             endWaypoint_of (filter available wps) = Some e) /\
  (forall e, endpoint wps = Some e -> available e = false ->
             endWaypoint_of (filter available wps) <> Some e).
Proof.
  rewrite endWaypoint_of_find, find_filter_skip. split; [reflexivity|].
  unfold endpoint. split.
  - intros e He Hav. induction wps as [|x l IH]; [discriminate|].
    cbn [find] in He |- *. destruct (wp_isEndPoint x).
    + injection He as ->. now rewrite Hav.
    + cbn [andb]. now apply IH.
  - intros e _ Hav Hfound. apply find_some in Hfound.
    destruct Hfound as [_ Hboth]. apply andb_true_iff in Hboth.
    destruct Hboth as [_ Hboth]. congruence.
Qed.
